(** * backoff: function decoration for backoff and retry

    A shallow embedding of [backoff.py] and the verification of its
    wait-time generators, its handler normalisation and its two retry
    loops ([on_predicate] and [on_exception]).

    Conventions of the embedding:
    - a Python [int] is a [Z];
    - a generator object is its frame (the local variables that survive a
      [yield]) together with a [next] function returning the yielded
      value and the frame at the following suspension point;
    - the callables handed to the decorators (target, jitter, handlers)
      are state transformers over an abstract world [W];
    - the default logging handlers are embedded from their text; what
      they use of the interpreter (["%s"] formatting, [sys.exc_info],
      [logger.error]) is a parameter, and formatting can raise;
    - a [while True] loop is run with fuel; the outcome [Diverging] means
      that the fuel ran out with the loop still iterating. *)

From Stdlib Require Import ZArith List Bool Lia.
From Stdlib Require String DecimalString.
Import ListNotations.

Local Open Scope Z_scope.

(** ** Wait-time generators *)

Module Gen.

(** [k] calls of [next] on a generator frame, keeping the frame. *)
Fixpoint advance {S A : Type} (next : S -> A * S) (k : nat) (s : S) : S :=
  match k with
  | O => s
  | Datatypes.S k' => advance next k' (snd (next s))
  end.

(** The value produced by the [k]-th call of [next] (counting from 0). *)
Definition nth_yield {S A : Type} (next : S -> A * S) (s : S) (k : nat) : A :=
  fst (next (advance next k s)).

(** The first [k] yielded values. *)
Fixpoint take {S A : Type} (next : S -> A * S) (k : nat) (s : S) : list A :=
  match k with
  | O => []
  | Datatypes.S k' => fst (next s) :: take next k' (snd (next s))
  end.

(** [expo(base, max_value)]: the frame is the exponent [n]. *)
Definition expo_init : Z := 0.

Definition expo_next (base : Z) (max_value : option Z) (n : Z) : Z * Z :=
  let a := base ^ n in
  match max_value with
  | None => (a, n + 1)
  | Some m => if a <? m then (a, n + 1) else (m, n)
  end.

(** [fibo(max_value)]: the frame is the pair [(a, b)]. *)
Definition fibo_init : Z * Z := (1, 1).

Definition fibo_next (max_value : option Z) (ab : Z * Z) : Z * (Z * Z) :=
  let '(a, b) := ab in
  match max_value with
  | None => (a, (b, a + b))
  | Some m => if a <? m then (a, (b, a + b)) else (m, (a, b))
  end.

(** [constant(interval)]: nothing survives a [yield]. *)
Definition constant_init : unit := tt.

Definition constant_next (interval : Z) (u : unit) : Z * unit := (interval, u).

(** The sequence the docstring of [fibo] calls the true fibonacci
    sequence: 1, 1, 2, 3, 5, ...; [fib_from a b k] is the term [k]
    places after [a] in the additive sequence that starts [a, b]. *)
Fixpoint fib_from (a b : Z) (k : nat) : Z :=
  match k with
  | O => a
  | Datatypes.S k' => fib_from b (a + b) k'
  end.

Definition fib (k : nat) : Z := fib_from 1 1 k.

Example expo_uncapped : take (expo_next 2 None) 6 expo_init = [1; 2; 4; 8; 16; 32].
Proof. reflexivity. Qed.

Example expo_capped : take (expo_next 2 (Some 5)) 6 expo_init = [1; 2; 4; 5; 5; 5].
Proof. reflexivity. Qed.

Example expo_negative_base :
  take (expo_next (-2) (Some 3)) 6 expo_init = [1; -2; 3; 3; 3; 3].
Proof. reflexivity. Qed.

Example fibo_uncapped : take (fibo_next None) 7 fibo_init = [1; 1; 2; 3; 5; 8; 13].
Proof. reflexivity. Qed.

Example fibo_capped : take (fibo_next (Some 13)) 9 fibo_init = [1; 1; 2; 3; 5; 8; 13; 13; 13].
Proof. reflexivity. Qed.

Example constant_five : take (constant_next 5) 4 constant_init = [5; 5; 5; 5].
Proof. reflexivity. Qed.

Lemma advance_S {S A : Type} (next : S -> A * S) (k : nat) (s : S) :
  advance next (Datatypes.S k) s = snd (next (advance next k s)).
Proof.
  revert s; induction k as [|k IH]; intros s; [reflexivity|].
  change (advance next (Datatypes.S (Datatypes.S k)) s)
    with (advance next (Datatypes.S k) (snd (next s))).
  rewrite IH; reflexivity.
Qed.

Lemma advance_add {S A : Type} (next : S -> A * S) (j k : nat) (s : S) :
  advance next (j + k) s = advance next k (advance next j s).
Proof.
  revert s; induction j as [|j IH]; intros s; [reflexivity|].
  simpl; apply IH.
Qed.

(** A frame that [next] leaves unchanged is never left again. *)
Lemma advance_fixed {S A : Type} (next : S -> A * S) (s : S) :
  snd (next s) = s -> forall k, advance next k s = s.
Proof.
  intros Hfix k; induction k as [|k IH]; [reflexivity|].
  simpl; rewrite Hfix; exact IH.
Qed.

Lemma nth_yield_S {S A : Type} (next : S -> A * S) (s : S) (k : nat) :
  nth_yield next s (Datatypes.S k) = nth_yield next (snd (next s)) k.
Proof. reflexivity. Qed.

Lemma nth_yield_take {S A : Type} (next : S -> A * S) (k n : nat) (s : S) :
  (k < n)%nat -> nth_error (take next n s) k = Some (nth_yield next s k).
Proof.
  revert k s; induction n as [|n IH]; intros k s Hk; [lia|].
  destruct k as [|k]; [reflexivity|].
  simpl; rewrite IH by lia; reflexivity.
Qed.

(** *** The cap of [expo] *)

Lemma expo_capped_frame (base m n : Z) :
  m <= base ^ n -> expo_next base (Some m) n = (m, n).
Proof.
  intros H; unfold expo_next.
  destruct (Z.ltb_spec (base ^ n) m); [lia | reflexivity].
Qed.

Lemma expo_capped_forever (base m n : Z) (k : nat) :
  m <= base ^ n ->
  advance (expo_next base (Some m)) k n = n /\
  nth_yield (expo_next base (Some m)) n k = m.
Proof.
  intros H.
  assert (Hfix : advance (expo_next base (Some m)) k n = n).
  { apply advance_fixed; rewrite expo_capped_frame by exact H; reflexivity. }
  split; [exact Hfix|].
  unfold nth_yield; rewrite Hfix, expo_capped_frame by exact H; reflexivity.
Qed.

Lemma expo_reaches_cap (base m : Z) (k0 : nat) :
  forall (n : Z) (k : nat),
    m <= base ^ (n + Z.of_nat k0) -> (k0 <= k)%nat ->
    nth_yield (expo_next base (Some m)) n k = m.
Proof.
  induction k0 as [|k0 IH]; intros n k Hcap Hle.
  - replace (n + Z.of_nat 0) with n in Hcap by lia.
    apply expo_capped_forever; exact Hcap.
  - destruct (Z.ltb_spec (base ^ n) m) as [Hlt|Hge].
    + destruct k as [|k]; [lia|].
      rewrite nth_yield_S.
      assert (Hstep : snd (expo_next base (Some m) n) = n + 1).
      { unfold expo_next. destruct (Z.ltb_spec (base ^ n) m); [reflexivity | lia]. }
      rewrite Hstep.
      apply (IH (n + 1) k); [|lia].
      replace (n + 1 + Z.of_nat k0) with (n + Z.of_nat (Datatypes.S k0)) by lia.
      exact Hcap.
    + apply expo_capped_forever; exact Hge.
Qed.

(** *** The cap of [fibo] *)

Lemma fibo_capped_frame (m a b : Z) :
  m <= a -> fibo_next (Some m) (a, b) = (m, (a, b)).
Proof.
  intros H; unfold fibo_next.
  destruct (Z.ltb_spec a m); [lia | reflexivity].
Qed.

Lemma fibo_capped_forever (m a b : Z) (k : nat) :
  m <= a ->
  advance (fibo_next (Some m)) k (a, b) = (a, b) /\
  nth_yield (fibo_next (Some m)) (a, b) k = m.
Proof.
  intros H.
  assert (Hfix : advance (fibo_next (Some m)) k (a, b) = (a, b)).
  { apply advance_fixed; rewrite fibo_capped_frame by exact H; reflexivity. }
  split; [exact Hfix|].
  unfold nth_yield; rewrite Hfix, fibo_capped_frame by exact H; reflexivity.
Qed.

Lemma fibo_reaches_cap (m : Z) (k0 : nat) :
  forall (a b : Z) (k : nat),
    m <= fib_from a b k0 -> (k0 <= k)%nat ->
    nth_yield (fibo_next (Some m)) (a, b) k = m.
Proof.
  induction k0 as [|k0 IH]; intros a b k Hcap Hle.
  - apply fibo_capped_forever; exact Hcap.
  - destruct (Z.ltb_spec a m) as [Hlt|Hge].
    + destruct k as [|k]; [lia|].
      rewrite nth_yield_S.
      assert (Hstep : snd (fibo_next (Some m) (a, b)) = (b, a + b)).
      { unfold fibo_next. destruct (Z.ltb_spec a m); [reflexivity | lia]. }
      rewrite Hstep.
      apply (IH b (a + b) k); [exact Hcap | lia].
    + apply fibo_capped_forever; exact Hge.
Qed.

(** *** Below the cap *)

Lemma expo_advance_below (base m : Z) (k : nat) :
  (forall j, (j < k)%nat -> base ^ Z.of_nat j < m) ->
  advance (expo_next base (Some m)) k expo_init = Z.of_nat k.
Proof.
  induction k as [|k IH]; intros Hlt; [reflexivity|].
  rewrite advance_S, IH by (intros j Hj; apply Hlt; lia).
  unfold expo_next.
  destruct (Z.ltb_spec (base ^ Z.of_nat k) m) as [_|Hge]; simpl; [lia|].
  specialize (Hlt k); lia.
Qed.

Lemma expo_below_cap (base m : Z) (k : nat) :
  (forall j, (j <= k)%nat -> base ^ Z.of_nat j < m) ->
  nth_yield (expo_next base (Some m)) expo_init k = base ^ Z.of_nat k.
Proof.
  intros Hlt; unfold nth_yield.
  rewrite expo_advance_below by (intros j Hj; apply Hlt; lia).
  unfold expo_next.
  destruct (Z.ltb_spec (base ^ Z.of_nat k) m) as [_|Hge]; [reflexivity|].
  specialize (Hlt k); lia.
Qed.

Lemma expo_unbounded (base : Z) (k : nat) :
  nth_yield (expo_next base None) expo_init k = base ^ Z.of_nat k.
Proof.
  assert (H : forall j, advance (expo_next base None) j expo_init = Z.of_nat j).
  { induction j as [|j IH]; [reflexivity|].
    rewrite advance_S, IH; unfold expo_next; simpl; lia. }
  unfold nth_yield; rewrite H; reflexivity.
Qed.

Lemma fib_from_SS (a b : Z) (k : nat) :
  fib_from a b (Datatypes.S (Datatypes.S k)) = fib_from a b k + fib_from a b (Datatypes.S k).
Proof.
  revert a b; induction k as [|k IH]; intros a b; [reflexivity|].
  change (fib_from a b (Datatypes.S (Datatypes.S (Datatypes.S k))))
    with (fib_from b (a + b) (Datatypes.S (Datatypes.S k))).
  rewrite IH; reflexivity.
Qed.

Lemma fibo_advance_below (m : Z) (k : nat) :
  (forall j, (j < k)%nat -> fib j < m) ->
  advance (fibo_next (Some m)) k fibo_init = (fib k, fib (Datatypes.S k)).
Proof.
  induction k as [|k IH]; intros Hlt; [reflexivity|].
  rewrite advance_S, IH by (intros j Hj; apply Hlt; lia).
  unfold fibo_next.
  destruct (Z.ltb_spec (fib k) m) as [_|Hge]; simpl.
  - unfold fib; rewrite (fib_from_SS 1 1 k); reflexivity.
  - specialize (Hlt k); lia.
Qed.

Lemma fibo_below_cap (m : Z) (k : nat) :
  (forall j, (j <= k)%nat -> fib j < m) ->
  nth_yield (fibo_next (Some m)) fibo_init k = fib k.
Proof.
  intros Hlt; unfold nth_yield.
  rewrite fibo_advance_below by (intros j Hj; apply Hlt; lia).
  unfold fibo_next.
  destruct (Z.ltb_spec (fib k) m) as [_|Hge]; [reflexivity|].
  specialize (Hlt k); lia.
Qed.

(** C7.  With [max_value = m], from the first index [k0] on at which the
    true exponential term [base ^ k0] (for [expo]) or the true Fibonacci
    term [fib k0] (for [fibo]) is [m] or more, every value yielded is
    exactly [m]; and once a frame is capped it never changes again, so
    every later value is [m] whatever the true sequence does. *)
Theorem cap_is_permanent (base m : Z) (k0 k : nat) :
  (k0 <= k)%nat ->
  (m <= base ^ Z.of_nat k0 ->
   nth_yield (expo_next base (Some m)) expo_init k = m) /\
  (m <= fib k0 ->
   nth_yield (fibo_next (Some m)) fibo_init k = m) /\
  (m <= base ^ advance (expo_next base (Some m)) k0 expo_init ->
   advance (expo_next base (Some m)) k expo_init =
   advance (expo_next base (Some m)) k0 expo_init /\
   nth_yield (expo_next base (Some m)) expo_init k = m) /\
  (m <= fst (advance (fibo_next (Some m)) k0 fibo_init) ->
   advance (fibo_next (Some m)) k fibo_init =
   advance (fibo_next (Some m)) k0 fibo_init /\
   nth_yield (fibo_next (Some m)) fibo_init k = m).
Proof.
  intros Hle.
  split; [|split; [|split]].
  - intros Hcap; apply (expo_reaches_cap base m k0); [exact Hcap | exact Hle].
  - intros Hcap; apply (fibo_reaches_cap m k0); [exact Hcap | exact Hle].
  - intros Hcap.
    replace k with (k0 + (k - k0))%nat by lia.
    unfold nth_yield; rewrite advance_add.
    destruct (expo_capped_forever base m _ (k - k0) Hcap) as [Hfix Hy].
    split; [exact Hfix | exact Hy].
  - intros Hcap.
    replace k with (k0 + (k - k0))%nat by lia.
    unfold nth_yield; rewrite advance_add.
    destruct (advance (fibo_next (Some m)) k0 fibo_init) as [a b] eqn:Hf.
    destruct (fibo_capped_forever m a b (k - k0) Hcap) as [Hfix Hy].
    split; [exact Hfix | exact Hy].
Qed.

Lemma cap_is_permanent_witness :
  nth_yield (expo_next 2 (Some 13)) expo_init 9 = 13 /\
  nth_yield (fibo_next (Some 13)) fibo_init 9 = 13 /\
  advance (expo_next 2 (Some 13)) 9 expo_init = advance (expo_next 2 (Some 13)) 7 expo_init /\
  advance (fibo_next (Some 13)) 9 fibo_init = advance (fibo_next (Some 13)) 7 fibo_init.
Proof.
  destruct (cap_is_permanent 2 13 7 9) as (He & Hf & Hpe & Hpf); [lia|].
  split; [apply He; vm_compute; discriminate|].
  split; [apply Hf; vm_compute; discriminate|].
  split; [apply Hpe; vm_compute; discriminate | apply Hpf; vm_compute; discriminate].
Defined.

(** *** The sequences without a cap, and below it *)

Lemma fibo_advance_unbounded (k : nat) :
  advance (fibo_next None) k fibo_init = (fib k, fib (Datatypes.S k)).
Proof.
  induction k as [|k IH]; [reflexivity|].
  rewrite advance_S, IH; unfold fibo_next; simpl.
  unfold fib; rewrite (fib_from_SS 1 1 k); reflexivity.
Qed.

Lemma fibo_unbounded (k : nat) : nth_yield (fibo_next None) fibo_init k = fib k.
Proof. unfold nth_yield; rewrite fibo_advance_unbounded; reflexivity. Qed.

(** X1.  Without [max_value], the [k]-th value of [expo] (counting from
    0) is [base ** k], for every integer base. *)
Theorem expo_yields_powers (base : Z) (k : nat) :
  nth_yield (expo_next base None) expo_init k = base ^ Z.of_nat k.
Proof. apply expo_unbounded. Qed.

(** X2.  Without [max_value], [fibo] yields 1, 1 and then, at every
    position, the sum of the two values before. *)
Theorem fibo_yields_fibonacci (k : nat) :
  nth_yield (fibo_next None) fibo_init 0 = 1 /\
  nth_yield (fibo_next None) fibo_init 1 = 1 /\
  nth_yield (fibo_next None) fibo_init (Datatypes.S (Datatypes.S k)) =
  nth_yield (fibo_next None) fibo_init k +
  nth_yield (fibo_next None) fibo_init (Datatypes.S k).
Proof.
  split; [reflexivity|]; split; [reflexivity|].
  rewrite !fibo_unbounded; apply (fib_from_SS 1 1 k).
Qed.

(** X3.  With [max_value = m], as long as every term of the true
    sequence up to position [k] is below [m], the [k]-th value of [expo]
    is [base ** k] and the [k]-th value of [fibo] is the [k]-th Fibonacci
    number: the cap changes nothing before it is reached. *)
Theorem below_cap_true_sequence (base m : Z) (k : nat) :
  ((forall j, (j <= k)%nat -> base ^ Z.of_nat j < m) ->
   nth_yield (expo_next base (Some m)) expo_init k =
   nth_yield (expo_next base None) expo_init k) /\
  ((forall j, (j <= k)%nat -> nth_yield (fibo_next None) fibo_init j < m) ->
   nth_yield (fibo_next (Some m)) fibo_init k =
   nth_yield (fibo_next None) fibo_init k).
Proof.
  split; intros Hlt.
  - rewrite expo_unbounded; apply expo_below_cap; exact Hlt.
  - rewrite fibo_unbounded; apply fibo_below_cap.
    intros j Hj; rewrite <- fibo_unbounded; apply Hlt; exact Hj.
Qed.

Lemma below_cap_true_sequence_witness :
  nth_yield (expo_next 2 (Some 100)) expo_init 6 = 64 /\
  nth_yield (fibo_next (Some 100)) fibo_init 6 = 13.
Proof.
  destruct (below_cap_true_sequence 2 100 6) as [He Hf].
  split.
  - rewrite He; [reflexivity|].
    intros j Hj.
    do 7 (destruct j as [|j]; [vm_compute; reflexivity|]); lia.
  - rewrite Hf; [reflexivity|].
    intros j Hj.
    do 7 (destruct j as [|j]; [vm_compute; reflexivity|]); lia.
Defined.

Lemma expo_le_max (base m : Z) (k : nat) :
  nth_yield (expo_next base (Some m)) expo_init k <= m.
Proof.
  unfold nth_yield.
  generalize (advance (expo_next base (Some m)) k expo_init); intros n.
  unfold expo_next; cbv zeta.
  destruct (Z.ltb_spec (base ^ n) m); cbn [fst]; lia.
Qed.

Lemma fibo_le_max (m : Z) (k : nat) :
  nth_yield (fibo_next (Some m)) fibo_init k <= m.
Proof.
  unfold nth_yield.
  destruct (advance (fibo_next (Some m)) k fibo_init) as [a b].
  unfold fibo_next; destruct (Z.ltb_spec a m); cbn [fst]; lia.
Qed.

(** X4.  With [max_value = m], no value [expo] or [fibo] yields is
    greater than [m], whatever the base and the position. *)
Theorem never_above_max_value (base m : Z) (k : nat) :
  nth_yield (expo_next base (Some m)) expo_init k <= m /\
  nth_yield (fibo_next (Some m)) fibo_init k <= m.
Proof. split; [apply expo_le_max | apply fibo_le_max]. Qed.

(** *** Wait times never shrink *)

Lemma expo_frame_nonneg (base : Z) (max_value : option Z) (k : nat) :
  0 <= advance (expo_next base max_value) k expo_init.
Proof.
  induction k as [|k IH]; [simpl; unfold expo_init; lia|].
  rewrite advance_S.
  generalize dependent (advance (expo_next base max_value) k expo_init); intros n Hn.
  unfold expo_next.
  destruct max_value as [m|]; cbv zeta; [|cbn [snd]; lia].
  destruct (base ^ n <? m); cbn [snd]; lia.
Qed.

Lemma expo_step_monotone (base : Z) (max_value : option Z) (n : Z) :
  1 <= base -> 0 <= n ->
  fst (expo_next base max_value n) <=
  fst (expo_next base max_value (snd (expo_next base max_value n))).
Proof.
  intros Hb Hn.
  assert (Hpow : base ^ n <= base ^ (n + 1)) by (apply Z.pow_le_mono_r; lia).
  unfold expo_next; destruct max_value as [m|]; simpl; [|exact Hpow].
  destruct (Z.ltb_spec (base ^ n) m) as [Hlt|Hge]; simpl.
  - destruct (Z.ltb_spec (base ^ (n + 1)) m); simpl; lia.
  - destruct (Z.ltb_spec (base ^ n) m); simpl; lia.
Qed.

Lemma fibo_frame_ordered (max_value : option Z) (k : nat) :
  0 < fst (advance (fibo_next max_value) k fibo_init) <=
  snd (advance (fibo_next max_value) k fibo_init).
Proof.
  induction k as [|k IH]; [simpl; lia|].
  rewrite advance_S.
  destruct (advance (fibo_next max_value) k fibo_init) as [a b]; simpl in IH.
  unfold fibo_next; destruct max_value as [m|]; simpl; [|lia].
  destruct (a <? m); simpl; lia.
Qed.

Lemma fibo_step_monotone (max_value : option Z) (a b : Z) :
  0 < a <= b ->
  fst (fibo_next max_value (a, b)) <=
  fst (fibo_next max_value (snd (fibo_next max_value (a, b)))).
Proof.
  intros Hab; unfold fibo_next; destruct max_value as [m|]; simpl; [|lia].
  destruct (Z.ltb_spec a m) as [Hlt|Hge]; simpl.
  - destruct (Z.ltb_spec b m); simpl; lia.
  - destruct (Z.ltb_spec a m); simpl; lia.
Qed.

(** X5.  The values of [fibo], and those of [expo] for a base of 1 or
    more, never decrease from one position to the next, with or without
    [max_value]. *)
Theorem waits_never_shrink (base : Z) (max_value : option Z) (k : nat) :
  (1 <= base ->
   nth_yield (expo_next base max_value) expo_init k <=
   nth_yield (expo_next base max_value) expo_init (Datatypes.S k)) /\
  nth_yield (fibo_next max_value) fibo_init k <=
  nth_yield (fibo_next max_value) fibo_init (Datatypes.S k).
Proof.
  split.
  - intros Hb; unfold nth_yield; rewrite advance_S.
    apply expo_step_monotone; [exact Hb | apply expo_frame_nonneg].
  - unfold nth_yield; rewrite advance_S.
    assert (H := fibo_frame_ordered max_value k).
    destruct (advance (fibo_next max_value) k fibo_init) as [a b].
    apply fibo_step_monotone; exact H.
Qed.

Lemma waits_never_shrink_witness :
  nth_yield (expo_next 3 (Some 50)) expo_init 3 <=
  nth_yield (expo_next 3 (Some 50)) expo_init 4.
Proof.
  apply (proj1 (waits_never_shrink 3 (Some 50) 3)); lia.
Defined.

End Gen.

(** ** The text of an invocation *)

Module Repr.

Import Stdlib.Strings.String.

Section InvocRepr.

Local Open Scope string_scope.

(** What [args] and the values of [kwargs] hold. *)
Variable value : Type.

(** ["%s" % a] for a positional argument [a], and ["%s=%s" % i] for an
    item [i] of [kwargs]. *)
Variable percent_s : value -> string.
Variable percent_s_eq : string * value -> string.

(** The truth value of a tuple or a dict. *)
Definition truthy {A : Type} (l : list A) : bool :=
  match l with
  | nil => false
  | _ => true
  end.

(** [_invoc_repr(invoc)], lines 369-377, for [invoc = f, args, kwargs]
    with [f.__name__ = name]; [kwargs] is given by its items in the
    order of [kwargs.items()]. *)
Definition _invoc_repr (name : string) (args : list value)
           (kwargs : list (string * value)) : string :=
  let args_out := concat ", " (map percent_s args) in
  let args_out := if truthy args && truthy kwargs then args_out ++ ", " else args_out in
  let args_out :=
    if truthy kwargs then args_out ++ concat ", " (map percent_s_eq kwargs)
    else args_out in
  name ++ "(" ++ args_out ++ ")".

Lemma append_nil_r (s : string) : s ++ "" = s.
Proof. induction s as [|c s IH]; [reflexivity | simpl; rewrite IH; reflexivity]. Qed.

Lemma append_assoc (s1 s2 s3 : string) : (s1 ++ s2) ++ s3 = s1 ++ s2 ++ s3.
Proof. induction s1 as [|c s1 IH]; [reflexivity | simpl; rewrite IH; reflexivity]. Qed.

(** Joining two lists that both have elements. *)
Lemma concat_app (sep : string) (x : string) (l1 : list string) (y : string)
      (l2 : list string) :
  concat sep ((x :: l1) ++ y :: l2) = concat sep (x :: l1) ++ sep ++ concat sep (y :: l2).
Proof.
  revert x; induction l1 as [|x' l1 IH]; intros x; [reflexivity|].
  change (concat sep ((x :: x' :: l1) ++ y :: l2))
    with (x ++ sep ++ concat sep ((x' :: l1) ++ y :: l2)).
  rewrite IH.
  change (concat sep (x :: x' :: l1)) with (x ++ sep ++ concat sep (x' :: l1)).
  rewrite !append_assoc; reflexivity.
Qed.

(** X18.  The text [_invoc_repr] builds is the function's name followed,
    in parentheses, by the formatted positional arguments and then the
    formatted keyword items, all separated by [", "]: a separator stands
    between the two groups exactly when both have elements, and the text
    is [name()] when there is no argument at all. *)
Theorem invoc_repr_joins_all (name : string) (args : list value)
        (kwargs : list (string * value)) :
  _invoc_repr name args kwargs =
  name ++ "(" ++ concat ", " (map percent_s args ++ map percent_s_eq kwargs) ++ ")" /\
  _invoc_repr name nil nil = name ++ "()".
Proof.
  split; [|reflexivity].
  unfold _invoc_repr.
  destruct args as [|a args]; destruct kwargs as [|kv kwargs]; cbn [truthy andb map].
  - reflexivity.
  - reflexivity.
  - rewrite List.app_nil_r; reflexivity.
  - change (map percent_s (a :: args) ++ percent_s_eq kv :: map percent_s_eq kwargs)%list
      with ((percent_s a :: map percent_s args)
              ++ percent_s_eq kv :: map percent_s_eq kwargs)%list.
    rewrite concat_app.
    cbn [map]; rewrite !append_assoc; reflexivity.
Qed.

End InvocRepr.

(** The messages of the two default handlers, lines 382-386 and
    393-397: [repr] is the text of the invocation, [tries] the text of
    the try count, [exception] the text of the exception being
    handled. *)
Definition backing_off (repr tries : string) : string :=
  ("Backing off " ++ repr ++ " after " ++ tries ++ " tries")%string.

Definition giving_up (repr tries : string) : string :=
  ("Giving up " ++ repr ++ " after " ++ tries ++ " tries")%string.

Definition with_exception (msg exception : string) : string :=
  (msg ++ " (exception " ++ exception ++ ")")%string.

Example invoc_repr_both :
  _invoc_repr nat (fun n => match n with O => "0" | _ => "n" end)%string
    (fun kv => (fst kv ++ "=x")%string) "get" (0 :: 1 :: nil)%nat
    (("timeout"%string, 2%nat) :: nil) =
  "get(0, n, timeout=x)"%string.
Proof. reflexivity. Qed.

End Repr.


(** ** The retry decorators *)

Module Retry.

Section Engine.

(** The world the callables act on, the values the target returns, the
    exceptions it raises, the numbers handled as wait times, the frame of
    the wait generator, and the arguments [( *args, **kwargs )] of one
    call of the decorated function. *)
Variables (W value exn delay G Args : Type).

(** Python's [+] on the wait time and the jitter. *)
Variable add : delay -> delay -> delay.

(** How a call ends: with a value or with a raised exception. *)
Inductive res (A : Type) : Type :=
| Val (a : A)
| Exc (e : exn).

Arguments Val {A} a.
Arguments Exc {A} e.

(** [target( *args, **kwargs )]. *)
Definition callable : Type := Args -> W -> res value * W.

(** [invoc = target, args, kwargs]. *)
Record invocation : Type := Invoc { inv_target : callable; inv_args : Args }.

(** An object passed positionally to a handler. *)
Inductive pyarg : Type :=
| AInvoc (i : invocation)
| AInt (n : Z)
| AValue (v : value)
| AExn (e : exn).

(** A handler is called with positional arguments, acts on the world and
    returns [None] or raises. *)
Definition handler : Type := list pyarg -> W -> res unit * W.

(** The value of an [on_success], [on_backoff] or [on_giveup] keyword:
    [None], one callable, or an object with [__iter__]. *)
Inductive hopt : Type :=
| HNone
| HCallable (h : handler)
| HIterable (hs : list handler).

(** [_handlers(hdlr, default=None)], lines 356-365. *)
Definition _handlers (hdlr : hopt) (default : option handler) : list handler :=
  let defaults := match default with Some d => [d] | None => [] end in
  match hdlr with
  | HNone => defaults
  | HIterable hs => defaults ++ hs
  | HCallable h => defaults ++ [h]
  end.

(** The handlers a caller supplied, in the order given. *)
Definition supplied (hdlr : hopt) : list handler :=
  match hdlr with
  | HNone => []
  | HCallable h => [h]
  | HIterable hs => hs
  end.

(** What the loop does that is visible from outside, in order. *)
Inductive hkind : Type := OnSuccess | OnBackoff | OnGiveup.

Inductive event : Type :=
| Called (r : res value)
| Drew (d : delay)
| Jittered (j : delay)
| Handled (k : hkind) (i : nat) (args : list pyarg)
| Slept (seconds : delay).

(** The locals of [retry] that change ([tries], [wait]), the world, and
    the events so far. *)
Record state : Type := State {
  world : W;
  trace : list event;
  tries : Z;
  wait : G
}.

Definition M (A : Type) : Type := state -> res A * state.

Definition mret {A : Type} (a : A) : M A := fun s => (Val a, s).

Definition raise {A : Type} (e : exn) : M A := fun s => (Exc e, s).

Definition bind {A B : Type} (c : M A) (k : A -> M B) : M B :=
  fun s =>
    match c s with
    | (Val a, s') => k a s'
    | (Exc e, s') => (Exc e, s')
    end.

Notation "x <- c ;; k" := (bind c (fun x => k))
  (at level 61, c at next level, right associativity).
Notation "c ;; k" := (bind c (fun _ => k))
  (at level 61, right associativity).

(** [try: c] with every exception handed to the [except] clauses. *)
Definition try {A : Type} (c : M A) : M (res A) :=
  fun s => let '(r, s') := c s in (Val r, s').

Definition log (e : event) (s : state) : state :=
  State (world s) (trace s ++ [e]) (tries s) (wait s).

Definition set_world (w : W) (s : state) : state :=
  State w (trace s) (tries s) (wait s).

(** The decorator's arguments and the decorated function. *)
Variable wait_gen : G.
Variable next : G -> delay * G.
Variable predicate : value -> bool.
Variable exception : exn -> bool.
Variable max_tries : option Z.
Variable jitter : W -> delay * W.
Variables on_success on_backoff on_giveup : hopt.
Variable target : callable.

(** [time.sleep]. *)
Variable sleep : delay -> W -> W.

(** What the default handlers use of the interpreter and of the objects
    they format.  Formatting calls the [__str__] of an object, or fails
    on it, so it can raise:
    - [positional args] are the items of the tuple [args] of a call and
      [keywords args] the items of its [kwargs], in the order of
      [kwargs.items()];
    - [percent_s a] is ["%s" % a], [percent_s_eq i] is ["%s=%s" % i],
      [name_of f] is [f.__name__], [percent_s_int n] is ["%s" % n] for
      an [int], [percent_s_exn e] is ["%s" % e] for an exception;
    - [exc_info w] is [sys.exc_info()[1]], the exception being handled
      according to the interpreter state, which is part of the world;
    - [logger_error msg] is [logger.error(msg)];
    - [type_error] is what a call with the wrong number of arguments
      raises. *)
Variable obj : Type.
Variable positional : Args -> list obj.
Variable keywords : Args -> list (String.string * obj).
Variable percent_s : obj -> res String.string.
Variable percent_s_eq : String.string * obj -> res String.string.
Variable name_of : callable -> res String.string.
Variable percent_s_int : Z -> String.string.
Variable percent_s_exn : exn -> res String.string.
Variable exc_info : W -> option exn.
Variable logger_error : String.string -> W -> res unit * W.
Variable type_error : exn.

(** The exception an operation raised, if it raised. *)
Definition raised_in {A : Type} (r : res A) : option exn :=
  match r with
  | Val _ => None
  | Exc e => Some e
  end.

(** The text an operation returned, if it returned. *)
Definition text (r : res String.string) : String.string :=
  match r with
  | Val s => s
  | Exc _ => String.EmptyString
  end.

(** The first exception of operations carried out in order. *)
Fixpoint first_raise (l : list (option exn)) : option exn :=
  match l with
  | [] => None
  | Some e :: _ => Some e
  | None :: l' => first_raise l'
  end.

(** The call [_invoc_repr(invoc)], lines 369-377: the positional
    arguments are formatted in order, then the keyword items, then the
    name of the function is read; the first of these to raise ends the
    call, otherwise the text is the one [Repr._invoc_repr] builds. *)
Definition _invoc_repr_call (invoc : invocation) : res String.string :=
  let f := inv_target invoc in
  let args := positional (inv_args invoc) in
  let kwargs := keywords (inv_args invoc) in
  match first_raise (map (fun a => raised_in (percent_s a)) args
                       ++ map (fun i => raised_in (percent_s_eq i)) kwargs
                       ++ [raised_in (name_of f)]) with
  | Some e => Exc e
  | None =>
      Val (Repr._invoc_repr obj (fun a => text (percent_s a))
             (fun i => text (percent_s_eq i)) (text (name_of f)) args kwargs)
  end.

(** [_log_backoff(invoc, tries)], lines 381-388. *)
Definition _log_backoff : handler :=
  fun a w =>
    match a with
    | [AInvoc invoc; AInt tries] =>
        match _invoc_repr_call invoc with
        | Exc e => (Exc e, w)
        | Val repr =>
            let msg := Repr.backing_off repr (percent_s_int tries) in
            match exc_info w with
            | None => logger_error msg w
            | Some exception =>
                match percent_s_exn exception with
                | Exc e => (Exc e, w)
                | Val t => logger_error (Repr.with_exception msg t) w
                end
            end
        end
    | _ => (Exc type_error, w)
    end.

(** [_log_giveup(invoc, tries)], lines 392-399. *)
Definition _log_giveup : handler :=
  fun a w =>
    match a with
    | [AInvoc invoc; AInt tries] =>
        match _invoc_repr_call invoc with
        | Exc e => (Exc e, w)
        | Val repr =>
            let msg := Repr.giving_up repr (percent_s_int tries) in
            match exc_info w with
            | None => logger_error msg w
            | Some exception =>
                match percent_s_exn exception with
                | Exc e => (Exc e, w)
                | Val t => logger_error (Repr.with_exception msg t) w
                end
            end
        end
    | _ => (Exc type_error, w)
    end.

(** Lines 238-240 and 315-317. *)
Definition success_hdlrs : list handler := _handlers on_success None.
Definition backoff_hdlrs : list handler := _handlers on_backoff (Some _log_backoff).
Definition giveup_hdlrs : list handler := _handlers on_giveup (Some _log_giveup).

Definition call_target (args : Args) : M value :=
  fun s =>
    let '(r, w) := target args (world s) in
    (r, log (Called r) (set_world w s)).

Definition call_hdlr (k : hkind) (i : nat) (h : handler) (args : list pyarg) : M unit :=
  fun s =>
    let '(r, w) := h args (world s) in
    (r, set_world w (log (Handled k i args) s)).

(** [for hdlr in hdlrs: hdlr( *args )]; [i] is the position of the head
    of [hdlrs] in the whole list. *)
Fixpoint for_hdlrs (k : hkind) (i : nat) (hdlrs : list handler) (args : list pyarg) : M unit :=
  match hdlrs with
  | [] => mret tt
  | h :: rest => call_hdlr k i h args ;; for_hdlrs k (S i) rest args
  end.

Definition incr_tries : M unit :=
  fun s => (Val tt, State (world s) (trace s) (tries s + 1) (wait s)).

Definition get_tries : M Z := fun s => (Val (tries s), s).

Definition next_wait : M delay :=
  fun s =>
    let '(d, g) := next (wait s) in
    (Val d, log (Drew d) (State (world s) (trace s) (tries s) g)).

Definition call_jitter : M delay :=
  fun s =>
    let '(j, w) := jitter (world s) in
    (Val j, log (Jittered j) (set_world w s)).

Definition time_sleep (seconds : delay) : M unit :=
  fun s => (Val tt, log (Slept seconds) (set_world (sleep seconds (world s)) s)).

(** [max_tries is not None and tries == max_tries]. *)
Definition exhausted (t : Z) : bool :=
  match max_tries with
  | None => false
  | Some m => t =? m
  end.

(** How one pass through the body of [while True] ends. *)
Inductive ctl : Type :=
| Continue
| Return (ret : value).

(** One pass through the loop of [on_predicate], lines 251-269; the
    [break]s lead to [return ret] on line 271. *)
Definition predicate_pass (args : Args) : M ctl :=
  let invoc := Invoc target args in
  ret <- call_target args ;;
  if predicate ret then
    incr_tries ;;
    t <- get_tries ;;
    if exhausted t then
      for_hdlrs OnGiveup 0 giveup_hdlrs [AInvoc invoc; AInt t] ;;
      mret (Return ret)
    else
      d <- next_wait ;;
      j <- call_jitter ;;
      let seconds := add d j in
      for_hdlrs OnBackoff 0 backoff_hdlrs [AInvoc invoc; AInt t] ;;
      time_sleep seconds ;;
      mret Continue
  else
    t <- get_tries ;;
    for_hdlrs OnSuccess 0 success_hdlrs [AInvoc invoc; AInt t] ;;
    mret (Return ret).

(** One pass through the loop of [on_exception], lines 328-347. *)
Definition exception_pass (args : Args) : M ctl :=
  let invoc := Invoc target args in
  r <- try (call_target args) ;;
  match r with
  | Exc e =>
      if exception e then
        incr_tries ;;
        t <- get_tries ;;
        if exhausted t then
          for_hdlrs OnGiveup 0 giveup_hdlrs [AInvoc invoc; AInt t] ;;
          raise e
        else
          d <- next_wait ;;
          j <- call_jitter ;;
          let seconds := add d j in
          for_hdlrs OnBackoff 0 backoff_hdlrs [AInvoc invoc; AInt t] ;;
          time_sleep seconds ;;
          mret Continue
      else raise e
  | Val ret =>
      t <- get_tries ;;
      for_hdlrs OnSuccess 0 success_hdlrs [AInvoc invoc; AInt t] ;;
      mret (Return ret)
  end.

(** How a call of the decorated function ends. *)
Inductive outcome : Type :=
| Returned (v : value)
| Raised (e : exn)
| Diverging.

(** [while True: body], at most [fuel] passes. *)
Fixpoint while_true (body : M ctl) (fuel : nat) (s : state) : outcome * state :=
  match fuel with
  | O => (Diverging, s)
  | S fuel' =>
      match body s with
      | (Val Continue, s') => while_true body fuel' s'
      | (Val (Return v), s') => (Returned v, s')
      | (Exc e, s') => (Raised e, s')
      end
  end.

(** [tries = 0; wait = wait_gen( **wait_gen_kwargs )]. *)
Definition start (w : W) : state := State w [] 0 wait_gen.

(** [retry( *args, **kwargs )] of either decorator. *)
Definition on_predicate (fuel : nat) (args : Args) (w : W) : outcome * state :=
  while_true (predicate_pass args) fuel (start w).

Definition on_exception (fuel : nat) (args : Args) (w : W) : outcome * state :=
  while_true (exception_pass args) fuel (start w).


(** *** Reading a trace *)

(** The results of the calls of the target, in order. *)
Fixpoint calls (tr : list event) : list (res value) :=
  match tr with
  | [] => []
  | Called r :: tr' => r :: calls tr'
  | _ :: tr' => calls tr'
  end.

(** The arguments of [time.sleep], in order. *)
Fixpoint sleeps (tr : list event) : list delay :=
  match tr with
  | [] => []
  | Slept d :: tr' => d :: sleeps tr'
  | _ :: tr' => sleeps tr'
  end.

(** The values [jitter()] returned, in order. *)
Fixpoint jitters (tr : list event) : list delay :=
  match tr with
  | [] => []
  | Jittered j :: tr' => j :: jitters tr'
  | _ :: tr' => jitters tr'
  end.

Definition hkind_eqb (a b : hkind) : bool :=
  match a, b with
  | OnSuccess, OnSuccess | OnBackoff, OnBackoff | OnGiveup, OnGiveup => true
  | _, _ => false
  end.

(** The handler calls of one kind: position in the handler list and
    arguments. *)
Fixpoint handled_by (k : hkind) (tr : list event) : list (nat * list pyarg) :=
  match tr with
  | [] => []
  | Handled k' i a :: tr' =>
      if hkind_eqb k k' then (i, a) :: handled_by k tr' else handled_by k tr'
  | _ :: tr' => handled_by k tr'
  end.

(** The events of a [for hdlr in hdlrs] loop that called [n] handlers
    from position [i] on. *)
Definition handled (k : hkind) (i n : nat) (a : list pyarg) : list event :=
  map (fun p => Handled k p a) (seq i n).

(** Each of [n] handlers called once, in order, with arguments [a]. *)
Definition each_once (n : nat) (a : list pyarg) : list (nat * list pyarg) :=
  map (fun p => (p, a)) (seq 0 n).

(** The arguments every handler call of the source passes:
    [hdlr(invoc, tries)]. *)
Definition payload (args : Args) (t : Z) : list pyarg :=
  [AInvoc (Invoc target args); AInt t].

(** A handler that returns normally whenever it is called as the loops
    call it for the invocation with [args]: with that invocation and a
    try count, in any world. *)
Definition quiet (args : Args) (h : handler) : Prop :=
  forall t w, fst (h (payload args t) w) = Val tt.

(** Which results of the target make each decorator retry. *)
Definition predicate_trigger (r : res value) : bool :=
  match r with
  | Val v => predicate v
  | Exc _ => false
  end.

Definition exception_trigger (r : res value) : bool :=
  match r with
  | Val _ => false
  | Exc e => exception e
  end.

(** The trace ends with a give-up handler called with [tries = m]. *)
Definition ends_in_giveup (args : Args) (m : Z) (tr : list event) : Prop :=
  exists tr' i, tr = tr' ++ [Handled OnGiveup i (payload args m)].

(** The counter never exceeds [m], and when it equals [m] the loop has
    ended by giving up. *)
Definition tries_capped (args : Args) (m : Z) (run : nat -> outcome * state) : Prop :=
  forall fuel,
    tries (snd (run fuel)) <= m /\
    (tries (snd (run fuel)) = m ->
     fst (run fuel) <> Diverging /\ ends_in_giveup args m (trace (snd (run fuel)))).

(** How many calls of the target ended in a way that makes the
    decorator retry. *)
Definition triggering (trig : res value -> bool) (tr : list event) : Z :=
  Z.of_nat (length (filter trig (calls tr))).

(** Pause number [k] (from 0) is the [k]-th value of the wait generator
    plus the [k]-th value [jitter()] returned. *)
Definition pauses_follow (tr : list event) : Prop :=
  forall (k : nat) (seconds : delay),
    nth_error (sleeps tr) k = Some seconds ->
    exists (j : delay) (w0 : W),
      nth_error (jitters tr) k = Some j /\
      j = fst (jitter w0) /\
      seconds = add (Gen.nth_yield next wait_gen k) j.

(** A handler call that passes exactly [invoc] and a try count. *)
Definition two_arguments (args : Args) (ev : event) : Prop :=
  match ev with
  | Handled _ _ a => exists t, a = payload args t
  | _ => True
  end.

(** A handler call that passes [invoc], a try count and the value or
    exception that triggered it. *)
Definition three_arguments (args : Args) (ev : event) : Prop :=
  match ev with
  | Handled _ _ a =>
      exists t x, a = payload args t ++ [x] /\
                  ((exists v, x = AValue v) \/ (exists e, x = AExn e))
  | _ => True
  end.

(** Everything one pass through either loop can do.  [trig] tells which
    results of the target make the decorator retry; [w0] is the world
    [jitter] was called in. *)
Inductive pass_shape (trig : res value -> bool) (args : Args) (s : state) :
  res ctl -> state -> Prop :=
| Pass_propagate (e : exn) (w : W) :
    trig (Exc e) = false ->
    pass_shape trig args s (Exc e)
      (State w (trace s ++ [Called (Exc e)]) (tries s) (wait s))
| Pass_success (v : value) (r : res ctl) (n : nat) (w : W) :
    trig (Val v) = false ->
    (n <= length success_hdlrs)%nat ->
    r <> Val Continue ->
    pass_shape trig args s r
      (State w
         (trace s ++ Called (Val v) :: handled OnSuccess 0 n (payload args (tries s)))
         (tries s) (wait s))
| Pass_giveup (r0 : res value) (r : res ctl) (n : nat) (w : W) :
    trig r0 = true ->
    exhausted (tries s + 1) = true ->
    (1 <= n)%nat ->
    r <> Val Continue ->
    pass_shape trig args s r
      (State w
         (trace s ++ Called r0 :: handled OnGiveup 0 n (payload args (tries s + 1)))
         (tries s + 1) (wait s))
| Pass_backoff_raised (r0 : res value) (e : exn) (n : nat) (w w0 : W) :
    trig r0 = true ->
    exhausted (tries s + 1) = false ->
    pass_shape trig args s (Exc e)
      (State w
         (trace s ++ Called r0 :: Drew (fst (next (wait s))) :: Jittered (fst (jitter w0))
            :: handled OnBackoff 0 n (payload args (tries s + 1)))
         (tries s + 1) (snd (next (wait s))))
| Pass_backoff (r0 : res value) (w w0 : W) :
    trig r0 = true ->
    exhausted (tries s + 1) = false ->
    pass_shape trig args s (Val Continue)
      (State w
         (trace s ++ Called r0 :: Drew (fst (next (wait s))) :: Jittered (fst (jitter w0))
            :: handled OnBackoff 0 (length backoff_hdlrs) (payload args (tries s + 1))
            ++ [Slept (add (fst (next (wait s))) (fst (jitter w0)))])
         (tries s + 1) (snd (next (wait s)))).

(** The two loops share their text from [tries += 1] to [time.sleep]
    (lines 253-264 and 331-342) up to the statement that leaves the loop
    after the give-up handlers ([break] or [raise]), and the text of
    their success branch (lines 267-269 and 344-347). *)
Definition after_trigger (args : Args) (leave : M ctl) : M ctl :=
  let invoc := Invoc target args in
  incr_tries ;;
  t <- get_tries ;;
  if exhausted t then
    for_hdlrs OnGiveup 0 giveup_hdlrs [AInvoc invoc; AInt t] ;;
    leave
  else
    d <- next_wait ;;
    j <- call_jitter ;;
    let seconds := add d j in
    for_hdlrs OnBackoff 0 backoff_hdlrs [AInvoc invoc; AInt t] ;;
    time_sleep seconds ;;
    mret Continue.

Definition after_success (args : Args) (ret : value) : M ctl :=
  let invoc := Invoc target args in
  t <- get_tries ;;
  for_hdlrs OnSuccess 0 success_hdlrs [AInvoc invoc; AInt t] ;;
  mret (Return ret).

(** The state right after the target was called in state [s], ended
    with [r] and left the world [w]. *)
Definition called (r : res value) (w : W) (s : state) : state :=
  State w (trace s ++ [Called r]) (tries s) (wait s).

(** How the loop ends when it gives up after the target ended with
    [r0]: [on_predicate] returns the last value, [on_exception] re-raises
    the last exception. *)
Definition final (r0 : res value) : res ctl :=
  match r0 with
  | Val v => Val (Return v)
  | Exc e => Exc e
  end.


(** A pass of [body] whose call of the target triggers a retry runs the
    shared text and leaves, when it gives up, with the last result. *)
Definition retries_on (trig : res value -> bool) (args : Args) (body : M ctl) : Prop :=
  forall s,
    trig (fst (target args (world s))) = true ->
    body s =
    after_trigger args (fun s' => (final (fst (target args (world s))), s'))
      (called (fst (target args (world s))) (snd (target args (world s))) s).

(** The target raises an exception of the configured kinds whenever it
    is called with [args]. *)
Definition always_raises_matching (args : Args) : Prop :=
  forall w, exists e w', target args w = (Exc e, w') /\ exception e = true.

(** The target returns a value the predicate holds of whenever it is
    called with [args]. *)
Definition always_unsatisfactory (args : Args) : Prop :=
  forall w, exists v w', target args w = (Val v, w') /\ predicate v = true.


(** One pause before every call of the target but the first. *)
Definition one_pause_per_retry (tr : list event) : Prop :=
  (length (sleeps tr) <= length (calls tr) <= S (length (sleeps tr)))%nat.

(** A call that returned [v] after one call of the target, every handler
    given as [on_success] called once with [tries = 0], and nothing
    else. *)
Definition succeeded_at_once (args : Args) (v : value) (r : outcome * state) : Prop :=
  fst r = Returned v /\
  trace (snd r) =
  Called (Val v) :: handled OnSuccess 0 (length (supplied on_success)) (payload args 0) /\
  calls (trace (snd r)) = [Val v] /\
  sleeps (trace (snd r)) = [] /\
  handled_by OnBackoff (trace (snd r)) = [] /\
  handled_by OnGiveup (trace (snd r)) = [] /\
  handled_by OnSuccess (trace (snd r)) =
  each_once (length (supplied on_success)) (payload args 0) /\
  tries (snd r) = 0.



(** *** A closer look at one pass *)

(** The values [next(wait)] returned, in order. *)
Fixpoint draws (tr : list event) : list delay :=
  match tr with
  | [] => []
  | Drew d :: tr' => d :: draws tr'
  | _ :: tr' => draws tr'
  end.


(** The handlers of each kind. *)
Definition hdlrs_of (k : hkind) : list handler :=
  match k with
  | OnSuccess => success_hdlrs
  | OnBackoff => backoff_hdlrs
  | OnGiveup => giveup_hdlrs
  end.

(** The state in which a pass that starts in [s] reaches the handler
    loop of kind [k]: after the call of the target for the success
    handlers, after [tries += 1] as well for the give-up handlers, and
    after [next(wait)] and [jitter()] as well for the backoff
    handlers. *)
Definition before_handlers (k : hkind) (args : Args) (s : state) : state :=
  let s1 := snd (call_target args s) in
  let s2 := snd (incr_tries s1) in
  match k with
  | OnSuccess => s1
  | OnGiveup => s2
  | OnBackoff => snd (call_jitter (snd (next_wait s2)))
  end.

(** The pass that starts in [s] reaches the handler loop of kind [k]:
    the result of its call of the target and the try count lead
    there. *)
Definition enters (trig : res value -> bool) (k : hkind) (args : Args) (s : state) : Prop :=
  let r0 := fst (target args (world s)) in
  match k with
  | OnSuccess => (exists v, r0 = Val v) /\ trig r0 = false
  | OnGiveup => trig r0 = true /\ exhausted (tries s + 1) = true
  | OnBackoff => trig r0 = true /\ exhausted (tries s + 1) = false
  end.

(** The handler loop of kind [k], entered in state [s0] with the
    arguments [a], was left by its [n]-th handler (counting from 1)
    raising [e]: the handlers before it were called in order from [s0]
    and returned, leaving the world [w1]; called in [w1] with [a], the
    [n]-th handler raised [e]; and [s'] is the state in which the loop
    was left. *)
Definition raised_by (k : hkind) (a : list pyarg) (s0 : state) (n : nat) (e : exn)
           (s' : state) : Prop :=
  (1 <= n <= length (hdlrs_of k))%nat /\
  exists (h : handler) (w1 : W),
    nth_error (hdlrs_of k) (n - 1) = Some h /\
    for_hdlrs k 0 (firstn (n - 1) (hdlrs_of k)) a s0 =
    (Val tt, State w1 (trace s0 ++ handled k 0 (n - 1) a) (tries s0) (wait s0)) /\
    h a w1 = (Exc e, world s') /\
    for_hdlrs k 0 (hdlrs_of k) a s0 = (Exc e, s').


(** Every give-up handler call in [tr] was made with [tries] equal to
    [max_tries], an integer of 1 or more. *)
Definition giveup_only_at_max (args : Args) (tr : list event) : Prop :=
  forall i a,
    In (i, a) (handled_by OnGiveup tr) ->
    exists m, max_tries = Some m /\ 1 <= m /\ a = payload args m.

(** At most [m] calls of the target and at most [m - 1] pauses. *)
Definition at_most_calls (m : Z) (tr : list event) : Prop :=
  Z.of_nat (length (calls tr)) <= m /\ Z.of_nat (length (sleeps tr)) <= m - 1.

(** Success handlers and give-up handlers are never both called, and
    neither is called while the loop still runs. *)
Definition ends_one_way (r : outcome * state) : Prop :=
  (handled_by OnSuccess (trace (snd r)) = [] \/ handled_by OnGiveup (trace (snd r)) = []) /\
  (fst r = Diverging ->
   handled_by OnSuccess (trace (snd r)) = [] /\ handled_by OnGiveup (trace (snd r)) = []).





(** A handler raised [e] in the run and this ended it: [run j] is the
    call cut after [j] passes and [run fuel] the whole call.  After [j]
    passes the loop was still running; the next pass reached the handler
    loop of some kind [k]; there the handlers before the [n]-th returned
    and the [n]-th raised [e]; and the call ended in the state that
    handler left. *)
Definition raised_by_handler (trig : res value -> bool) (args : Args)
           (run : nat -> outcome * state) (fuel : nat) (e : exn) : Prop :=
  exists (j : nat) (k : hkind) (n : nat),
    (j < fuel)%nat /\
    fst (run j) = Diverging /\
    enters trig k args (snd (run j)) /\
    raised_by k (payload args (tries (before_handlers k args (snd (run j)))))
      (before_handlers k args (snd (run j))) n e (snd (run fuel)).




(** The wait generator was advanced once per backoff: the values drawn
    are the first values of a fresh generator, in order, one for each
    call of [jitter], and [wait] is the frame after them. *)
Definition schedule_followed (s : state) : Prop :=
  draws (trace s) = Gen.take next (length (draws (trace s))) wait_gen /\
  wait s = Gen.advance next (length (draws (trace s))) wait_gen /\
  length (jitters (trace s)) = length (draws (trace s)).

(** A handler that raises [e] whatever it is called with. *)
Definition raising (e : exn) (h : handler) : Prop := forall a w, fst (h a w) = Exc e.

(** The handler list [hs] is [before], which return normally when
    called for the invocation with [args], then [h], which raises [e],
    then further handlers. *)
Definition first_raising (args : Args) (hs before : list handler) (h : handler) (e : exn)
  : Prop :=
  Forall (quiet args) before /\ raising e h /\ exists rest, hs = before ++ h :: rest.

(** A call that a handler of kind [k] aborted with [e]: it raised [e],
    the handlers up to the raising one were called once each with
    [tries = t], the later ones were not called. *)
Definition aborted_by (k : hkind) (args : Args) (before : list handler) (t : Z) (e : exn)
           (r : outcome * state) : Prop :=
  fst r = Raised e /\
  handled_by k (trace (snd r)) = each_once (S (length before)) (payload args t).

(** *** When the default handlers return *)


(** The first call of the target returned [v] and there was no retry:
    no pause, no backoff or give-up handler, [tries] still 0, and the
    first [n] success handlers called once each, in order, with
    [tries = 0]; the call returned [v] or a success handler raised. *)
Definition no_retry (args : Args) (v : value) (r : outcome * state) : Prop :=
  calls (trace (snd r)) = [Val v] /\
  sleeps (trace (snd r)) = [] /\
  handled_by OnBackoff (trace (snd r)) = [] /\
  handled_by OnGiveup (trace (snd r)) = [] /\
  tries (snd r) = 0 /\
  (fst r = Returned v \/ exists e, fst r = Raised e) /\
  exists n, (n <= length (supplied on_success))%nat /\
            handled_by OnSuccess (trace (snd r)) = each_once n (payload args 0).

(** *** Traces of handler loops *)

Lemma calls_app (a b : list event) : calls (a ++ b) = calls a ++ calls b.
Proof.
  induction a as [|ev a IH]; [reflexivity|].
  destruct ev; simpl; rewrite IH; reflexivity.
Qed.

Lemma sleeps_app (a b : list event) : sleeps (a ++ b) = sleeps a ++ sleeps b.
Proof.
  induction a as [|ev a IH]; [reflexivity|].
  destruct ev; simpl; rewrite IH; reflexivity.
Qed.

Lemma jitters_app (a b : list event) : jitters (a ++ b) = jitters a ++ jitters b.
Proof.
  induction a as [|ev a IH]; [reflexivity|].
  destruct ev; simpl; rewrite IH; reflexivity.
Qed.

Lemma handled_by_app (k : hkind) (a b : list event) :
  handled_by k (a ++ b) = handled_by k a ++ handled_by k b.
Proof.
  induction a as [|ev a IH]; [reflexivity|].
  destruct ev; simpl; rewrite ?IH; try reflexivity.
  destruct (hkind_eqb k k0); reflexivity.
Qed.

Lemma calls_handled (k : hkind) (i n : nat) (a : list pyarg) : calls (handled k i n a) = [].
Proof. revert i; induction n as [|n IH]; intros i; [reflexivity | apply IH]. Qed.

Lemma sleeps_handled (k : hkind) (i n : nat) (a : list pyarg) : sleeps (handled k i n a) = [].
Proof. revert i; induction n as [|n IH]; intros i; [reflexivity | apply IH]. Qed.

Lemma jitters_handled (k : hkind) (i n : nat) (a : list pyarg) : jitters (handled k i n a) = [].
Proof. revert i; induction n as [|n IH]; intros i; [reflexivity | apply IH]. Qed.

Lemma handled_by_handled (k k' : hkind) (i n : nat) (a : list pyarg) :
  handled_by k (handled k' i n a) =
  if hkind_eqb k k' then map (fun p => (p, a)) (seq i n) else [].
Proof.
  revert i; induction n as [|n IH]; intros i.
  - destruct (hkind_eqb k k'); reflexivity.
  - change (handled k' i (S n) a) with (Handled k' i a :: handled k' (S i) n a).
    simpl; rewrite IH; destruct (hkind_eqb k k'); reflexivity.
Qed.

Lemma handled_snoc (k : hkind) (i n : nat) (a : list pyarg) :
  handled k i (S n) a = handled k i n a ++ [Handled k (i + n) a].
Proof.
  unfold handled; rewrite seq_S, map_app; reflexivity.
Qed.

Lemma Forall_handled (P : event -> Prop) (k : hkind) (i n : nat) (a : list pyarg) :
  (forall p, P (Handled k p a)) -> Forall P (handled k i n a).
Proof.
  intros H; unfold handled; apply Forall_forall; intros ev Hin.
  apply in_map_iff in Hin; destruct Hin as [p [<- _]]; apply H.
Qed.

(** A handler loop calls a prefix of its handlers, the whole list when
    it ends normally, and touches neither [tries] nor [wait]. *)
Lemma for_hdlrs_run (k : hkind) (a : list pyarg) (hs : list handler) :
  forall (i : nat) (s : state),
  exists (n : nat) (r : res unit) (w : W),
    for_hdlrs k i hs a s = (r, State w (trace s ++ handled k i n a) (tries s) (wait s)) /\
    (n <= length hs)%nat /\
    (hs <> [] -> (1 <= n)%nat) /\
    (r = Val tt -> n = length hs).
Proof.
  induction hs as [|h hs IH]; intros i s.
  - exists 0%nat, (Val tt), (world s); destruct s; simpl.
    rewrite app_nil_r; repeat split; auto; congruence.
  - simpl; unfold bind, call_hdlr.
    destruct (h a (world s)) as [[[]|e] w1].
    + destruct (IH (S i) (set_world w1 (log (Handled k i a) s))) as (n & r & w & Heq & Hn & _ & Hr).
      exists (S n), r, w; rewrite Heq; simpl.
      rewrite <- app_assoc.
      split; [reflexivity|].
      split; [lia|].
      split; [intros _; lia|].
      intros Hv; rewrite (Hr Hv); reflexivity.
    + exists 1%nat, (Exc e), w1; simpl; repeat split; auto; try lia; discriminate.
Qed.

Lemma for_hdlrs_quiet (k : hkind) (args : Args) (t : Z) (hs : list handler) :
  Forall (quiet args) hs ->
  forall (i : nat) (s : state),
  exists w : W,
    for_hdlrs k i hs (payload args t) s =
    (Val tt,
     State w (trace s ++ handled k i (length hs) (payload args t)) (tries s) (wait s)).
Proof.
  induction 1 as [|h hs Hq _ IH]; intros i s.
  - exists (world s); destruct s; simpl; rewrite app_nil_r; reflexivity.
  - simpl; unfold bind, call_hdlr.
    specialize (Hq t (world s)).
    destruct (h (payload args t) (world s)) as [r w1]; simpl in Hq; subst r.
    destruct (IH (S i) (set_world w1 (log (Handled k i (payload args t)) s))) as (w & Heq).
    exists w; rewrite Heq; simpl; rewrite <- app_assoc; reflexivity.
Qed.

(** *** One pass through a loop *)

Lemma predicate_pass_unfold (args : Args) (s : state) :
  predicate_pass args s =
  match target args (world s) with
  | (Val v, w) =>
      if predicate v
      then after_trigger args (mret (Return v)) (called (Val v) w s)
      else after_success args v (called (Val v) w s)
  | (Exc e, w) => (Exc e, called (Exc e) w s)
  end.
Proof.
  unfold predicate_pass, bind at 1, call_target.
  destruct (target args (world s)) as [[v|e] w]; [|reflexivity].
  destruct (predicate v); reflexivity.
Qed.

Lemma exception_pass_unfold (args : Args) (s : state) :
  exception_pass args s =
  match target args (world s) with
  | (Val v, w) => after_success args v (called (Val v) w s)
  | (Exc e, w) =>
      if exception e
      then after_trigger args (raise e) (called (Exc e) w s)
      else (Exc e, called (Exc e) w s)
  end.
Proof.
  unfold exception_pass, bind at 1, try, call_target.
  destruct (target args (world s)) as [[v|e] w]; [reflexivity|].
  destruct (exception e); reflexivity.
Qed.

Lemma after_success_run (args : Args) (v : value) (s : state) :
  exists (n : nat) (r : res ctl) (w : W),
    after_success args v s =
    (r, State w (trace s ++ handled OnSuccess 0 n (payload args (tries s))) (tries s) (wait s)) /\
    (n <= length success_hdlrs)%nat /\
    r <> Val Continue.
Proof.
  unfold after_success, bind, get_tries.
  destruct (for_hdlrs_run OnSuccess (payload args (tries s)) success_hdlrs 0 s)
    as (n & r & w & Heq & Hn & _ & _).
  unfold payload in Heq; rewrite Heq.
  destruct r as [[]|e].
  - exists n, (Val (Return v)), w; repeat split; auto; discriminate.
  - exists n, (Exc e), w; repeat split; auto; discriminate.
Qed.

Lemma after_success_quiet (args : Args) (v : value) (s : state) :
  Forall (quiet args) success_hdlrs ->
  exists w : W,
    after_success args v s =
    (Val (Return v),
     State w (trace s ++ handled OnSuccess 0 (length success_hdlrs) (payload args (tries s)))
       (tries s) (wait s)).
Proof.
  intros Hq; unfold after_success, bind, get_tries.
  destruct (for_hdlrs_quiet OnSuccess args (tries s) success_hdlrs Hq 0 s) as (w & Heq).
  unfold payload in Heq; rewrite Heq; exists w; reflexivity.
Qed.

Lemma giveup_hdlrs_cons : giveup_hdlrs = _log_giveup :: supplied on_giveup.
Proof. unfold giveup_hdlrs, _handlers; destruct on_giveup; reflexivity. Qed.

Lemma backoff_hdlrs_cons : backoff_hdlrs = _log_backoff :: supplied on_backoff.
Proof. unfold backoff_hdlrs, _handlers; destruct on_backoff; reflexivity. Qed.

Lemma success_hdlrs_supplied : success_hdlrs = supplied on_success.
Proof. unfold success_hdlrs, _handlers; destruct on_success; reflexivity. Qed.

(** When the try count reaches [max_tries]: the give-up handlers, then
    [leave]. *)
Lemma after_trigger_giveup_run (args : Args) (leave : M ctl) (rl : res ctl) (s : state) :
  (forall s', leave s' = (rl, s')) ->
  rl <> Val Continue ->
  exhausted (tries s + 1) = true ->
  exists (n : nat) (r : res ctl) (w : W),
    after_trigger args leave s =
    (r, State w (trace s ++ handled OnGiveup 0 n (payload args (tries s + 1)))
          (tries s + 1) (wait s)) /\
    (1 <= n)%nat /\ r <> Val Continue.
Proof.
  intros Hl Hrl Hx; unfold after_trigger, bind, incr_tries, get_tries; simpl.
  rewrite Hx.
  destruct (for_hdlrs_run OnGiveup (payload args (tries s + 1)) giveup_hdlrs 0
              (State (world s) (trace s) (tries s + 1) (wait s)))
    as (n & r & w & Heq & _ & Hn & _).
  unfold payload in Heq; rewrite Heq; simpl.
  assert (H1 : (1 <= n)%nat) by (apply Hn; rewrite giveup_hdlrs_cons; discriminate).
  destruct r as [[]|e].
  - rewrite Hl; exists n, rl, w; auto.
  - exists n, (Exc e), w; repeat split; auto; discriminate.
Qed.


(** Otherwise: the wait time, the jitter, the backoff handlers and the
    pause. *)
Lemma after_trigger_backoff_run (args : Args) (leave : M ctl) (s : state) :
  exhausted (tries s + 1) = false ->
  let d := fst (next (wait s)) in
  let j := fst (jitter (world s)) in
  exists w : W,
    (exists (e : exn) (n : nat),
        after_trigger args leave s =
        (Exc e,
         State w
           (trace s ++ Drew d :: Jittered j :: handled OnBackoff 0 n (payload args (tries s + 1)))
           (tries s + 1) (snd (next (wait s))))) \/
    after_trigger args leave s =
    (Val Continue,
     State w
       (trace s ++ Drew d :: Jittered j
          :: handled OnBackoff 0 (length backoff_hdlrs) (payload args (tries s + 1))
          ++ [Slept (add d j)])
       (tries s + 1) (snd (next (wait s)))).
Proof.
  intros Hx d j; subst d j.
  unfold after_trigger, bind, incr_tries, get_tries, next_wait, call_jitter; simpl.
  rewrite Hx; simpl.
  destruct (next (wait s)) as [d g]; simpl.
  unfold log, set_world; simpl.
  destruct (jitter (world s)) as [j w1]; simpl.
  destruct (for_hdlrs_run OnBackoff (payload args (tries s + 1)) backoff_hdlrs 0
              (State w1 ((trace s ++ [Drew d]) ++ [Jittered j]) (tries s + 1) g))
    as (n & r & w & Heq & _ & _ & Hr).
  unfold payload in Heq; unfold set_world, log; simpl. rewrite Heq; simpl.
  destruct r as [[]|e].
  - exists (sleep (add d j) w); right.
    rewrite (Hr eq_refl).
    unfold time_sleep, mret, set_world, log; simpl.
    repeat rewrite <- app_assoc; reflexivity.
  - exists w; left; exists e, n.
    repeat rewrite <- app_assoc; reflexivity.
Qed.

Lemma after_trigger_backoff_quiet (args : Args) (leave : M ctl) (s : state) :
  Forall (quiet args) backoff_hdlrs ->
  exhausted (tries s + 1) = false ->
  exists w : W,
    after_trigger args leave s =
    (Val Continue,
     State w
       (trace s ++ Drew (fst (next (wait s))) :: Jittered (fst (jitter (world s)))
          :: handled OnBackoff 0 (length backoff_hdlrs) (payload args (tries s + 1))
          ++ [Slept (add (fst (next (wait s))) (fst (jitter (world s))))])
       (tries s + 1) (snd (next (wait s)))).
Proof.
  intros Hq Hx.
  unfold after_trigger, bind, incr_tries, get_tries, next_wait, call_jitter; simpl.
  rewrite Hx; simpl.
  destruct (next (wait s)) as [d g]; simpl.
  unfold log, set_world; simpl.
  destruct (jitter (world s)) as [j w1]; simpl.
  destruct (for_hdlrs_quiet OnBackoff args (tries s + 1) backoff_hdlrs Hq 0
              (State w1 ((trace s ++ [Drew d]) ++ [Jittered j]) (tries s + 1) g))
    as (w & Heq).
  unfold payload in Heq; unfold set_world, log; simpl; rewrite Heq; simpl.
  exists (sleep (add d j) w).
  unfold time_sleep, mret, set_world, log; simpl.
  repeat rewrite <- app_assoc; reflexivity.
Qed.

(** Whatever the target and the handlers do, a pass after a triggering
    result has one of the three shapes of a retry. *)
Lemma after_trigger_shape (trig : res value -> bool) (args : Args)
      (leave : M ctl) (rl : res ctl) (r0 : res value) (w0 : W) (s : state) :
  (forall s', leave s' = (rl, s')) ->
  rl <> Val Continue ->
  trig r0 = true ->
  pass_shape trig args s
    (fst (after_trigger args leave (called r0 w0 s)))
    (snd (after_trigger args leave (called r0 w0 s))).
Proof.
  intros Hl Hrl Ht.
  destruct (exhausted (tries s + 1)) eqn:Hx.
  - destruct (after_trigger_giveup_run args leave rl (called r0 w0 s) Hl Hrl Hx)
      as (n & r & w & Heq & Hn & Hr).
    rewrite Heq; simpl; rewrite <- app_assoc; simpl.
    apply Pass_giveup; assumption.
  - destruct (after_trigger_backoff_run args leave (called r0 w0 s) Hx)
      as (w & [(e & n & Heq) | Heq]); rewrite Heq; simpl; rewrite <- app_assoc; simpl.
    + apply Pass_backoff_raised; assumption.
    + apply Pass_backoff; assumption.
Qed.

Lemma after_success_shape (trig : res value -> bool) (args : Args)
      (v : value) (w0 : W) (s : state) :
  trig (Val v) = false ->
  pass_shape trig args s
    (fst (after_success args v (called (Val v) w0 s)))
    (snd (after_success args v (called (Val v) w0 s))).
Proof.
  intros Ht.
  destruct (after_success_run args v (called (Val v) w0 s)) as (n & r & w & Heq & Hn & Hr).
  rewrite Heq; simpl; rewrite <- app_assoc; simpl.
  apply Pass_success; assumption.
Qed.

Lemma predicate_pass_shape (args : Args) (s : state) :
  pass_shape predicate_trigger args s
    (fst (predicate_pass args s)) (snd (predicate_pass args s)).
Proof.
  rewrite predicate_pass_unfold.
  destruct (target args (world s)) as [[v|e] w].
  - destruct (predicate v) eqn:Hp.
    + apply after_trigger_shape with (rl := Val (Return v)); auto; discriminate.
    + apply after_success_shape; exact Hp.
  - apply Pass_propagate; reflexivity.
Qed.

Lemma exception_pass_shape (args : Args) (s : state) :
  pass_shape exception_trigger args s
    (fst (exception_pass args s)) (snd (exception_pass args s)).
Proof.
  rewrite exception_pass_unfold.
  destruct (target args (world s)) as [[v|e] w].
  - apply after_success_shape; reflexivity.
  - destruct (exception e) eqn:He.
    + apply after_trigger_shape with (rl := Exc e); auto; discriminate.
    + apply Pass_propagate; exact He.
Qed.

(** *** Invariants of the loops *)

(** What holds at every loop head ([I]) and what holds however the loop
    is left or cut off ([Q]). *)
Lemma while_true_inv (body : M ctl) (I : state -> Prop) (Q : outcome -> state -> Prop) :
  (forall s, I s -> Q Diverging s) ->
  (forall s, I s ->
             match body s with
             | (Val Continue, s') => I s'
             | (Val (Return v), s') => Q (Returned v) s'
             | (Exc e, s') => Q (Raised e) s'
             end) ->
  forall fuel s, I s ->
                 Q (fst (while_true body fuel s)) (snd (while_true body fuel s)).
Proof.
  intros Hcut Hstep fuel; induction fuel as [|fuel IH]; intros s HI.
  - apply Hcut; exact HI.
  - simpl; specialize (Hstep s HI).
    destruct (body s) as [[[|v]|e] s']; simpl; auto.
Qed.

Lemma shaped_loop_inv (trig : res value -> bool) (args : Args) (body : M ctl)
      (I : state -> Prop) (Q : outcome -> state -> Prop) :
  (forall s, pass_shape trig args s (fst (body s)) (snd (body s))) ->
  (forall s, I s -> Q Diverging s) ->
  (forall s r s', I s -> pass_shape trig args s r s' ->
                  match r with
                  | Val Continue => I s'
                  | Val (Return v) => Q (Returned v) s'
                  | Exc e => Q (Raised e) s'
                  end) ->
  forall fuel s, I s ->
                 Q (fst (while_true body fuel s)) (snd (while_true body fuel s)).
Proof.
  intros Hshape Hcut Hstep; apply while_true_inv; [exact Hcut|].
  intros s HI; specialize (Hstep s _ _ HI (Hshape s)).
  destruct (body s) as [r s']; exact Hstep.
Qed.

(** Every handler call in a trace passes [invoc] and the try count and
    nothing else. *)
Lemma two_arguments_handled (args : Args) (k : hkind) (i n : nat) (t : Z) :
  Forall (two_arguments args) (handled k i n (payload args t)).
Proof. apply Forall_handled; intros p; exists t; reflexivity. Qed.

Lemma two_arguments_loop (trig : res value -> bool) (args : Args) (body : M ctl) :
  (forall s, pass_shape trig args s (fst (body s)) (snd (body s))) ->
  forall fuel s,
    Forall (two_arguments args) (trace s) ->
    Forall (two_arguments args) (trace (snd (while_true body fuel s))).
Proof.
  intros Hshape fuel s Hs.
  apply (shaped_loop_inv trig args body
           (fun s => Forall (two_arguments args) (trace s))
           (fun _ s => Forall (two_arguments args) (trace s)) Hshape); auto.
  clear; intros s r s' HI Hp.
  assert (Hs' : Forall (two_arguments args) (trace s')).
  { destruct Hp; simpl; apply Forall_app; split; auto;
      repeat (apply Forall_cons; [exact Logic.I|]);
      try apply Forall_nil;
      try apply two_arguments_handled.
    apply Forall_app; split; [apply two_arguments_handled|].
    apply Forall_cons; [exact Logic.I | apply Forall_nil]. }
  destruct r as [[|v]|e]; exact Hs'.
Qed.

(** [tries] counts the calls of the target that triggered a retry. *)
Lemma triggering_snoc (trig : res value -> bool) (tr rest : list event) (r0 : res value) :
  calls rest = [] ->
  triggering trig (tr ++ Called r0 :: rest) =
  triggering trig tr + (if trig r0 then 1 else 0).
Proof.
  intros Hrest; unfold triggering.
  rewrite calls_app; simpl; rewrite Hrest, filter_app, length_app; simpl.
  destruct (trig r0); simpl; lia.
Qed.

Lemma tries_count_loop (trig : res value -> bool) (args : Args) (body : M ctl) :
  (forall s, pass_shape trig args s (fst (body s)) (snd (body s))) ->
  forall fuel s,
    tries s = triggering trig (trace s) ->
    tries (snd (while_true body fuel s)) =
    triggering trig (trace (snd (while_true body fuel s))).
Proof.
  intros Hshape fuel s Hs.
  apply (shaped_loop_inv trig args body
           (fun s => tries s = triggering trig (trace s))
           (fun _ s => tries s = triggering trig (trace s)) Hshape); auto.
  clear; intros s r s' HI Hp.
  assert (Hs' : tries s' = triggering trig (trace s')).
  { destruct Hp; simpl.
    - rewrite triggering_snoc by reflexivity. rewrite H; lia.
    - rewrite triggering_snoc by apply calls_handled. rewrite H; lia.
    - rewrite triggering_snoc by apply calls_handled. rewrite H; lia.
    - rewrite triggering_snoc by (simpl; apply calls_handled). rewrite H; lia.
    - rewrite triggering_snoc
        by (simpl; rewrite calls_app, calls_handled; reflexivity).
      rewrite H; lia. }
  destruct r as [[|v]|e]; exact Hs'.
Qed.

Lemma exhausted_iff (m t : Z) : max_tries = Some m -> (exhausted t = true <-> t = m).
Proof. intros H; unfold exhausted; rewrite H; apply Z.eqb_eq. Qed.

Lemma exhausted_false_iff (m t : Z) : max_tries = Some m -> (exhausted t = false <-> t <> m).
Proof. intros H; unfold exhausted; rewrite H; apply Z.eqb_neq. Qed.

(** With [max_tries = m >= 1] the counter stays below [m] at every loop
    head, and a pass that makes it [m] leaves the loop through the
    give-up handlers. *)
Lemma capped_loop (trig : res value -> bool) (args : Args) (body : M ctl) (m : Z) :
  max_tries = Some m ->
  (forall s, pass_shape trig args s (fst (body s)) (snd (body s))) ->
  forall fuel s,
    tries s < m ->
    tries (snd (while_true body fuel s)) <= m /\
    (tries (snd (while_true body fuel s)) = m ->
     fst (while_true body fuel s) <> Diverging /\
     ends_in_giveup args m (trace (snd (while_true body fuel s)))).
Proof.
  intros Hmax Hshape fuel s Hs.
  apply (shaped_loop_inv trig args body
           (fun s => tries s < m)
           (fun o s => tries s <= m /\
                       (tries s = m -> o <> Diverging /\ ends_in_giveup args m (trace s)))
           Hshape); auto.
  - clear - Hmax; intros s HI; split; [lia|]; intros; lia.
  - clear - Hmax; intros s r s' HI Hp.
    destruct Hp as [e w Ht | v r n w Ht Hn Hr | r0 r n w Ht Hx Hn Hr
                    | r0 e n w w0 Ht Hx | r0 w w0 Ht Hx]; simpl.
    + split; [lia|]; intros; lia.
    + destruct r as [[|v']|e]; [congruence| |]; (split; [simpl; lia|]; simpl; intros; lia).
    + apply (exhausted_iff m) in Hx; [|exact Hmax].
      assert (Hend : ends_in_giveup args m
                       (trace s ++ Called r0 :: handled OnGiveup 0 n (payload args (tries s + 1)))).
      { destruct n as [|n]; [lia|].
        rewrite handled_snoc, Hx.
        exists (trace s ++ Called r0 :: handled OnGiveup 0 n (payload args m)), (0 + n)%nat.
        rewrite <- app_assoc; reflexivity. }
      destruct r as [[|v']|e]; [congruence| |];
        (split; [simpl; lia|]; simpl; intros _; split; [discriminate | exact Hend]).
    + apply (exhausted_false_iff m) in Hx; [|exact Hmax].
      split; [lia|]; intros; lia.
    + apply (exhausted_false_iff m) in Hx; [|exact Hmax]. lia.
Qed.

(** The pauses of a trace, when nothing was slept since [tr]. *)
Lemma pauses_follow_keep (tr tr' : list event) (extra : list delay) :
  pauses_follow tr ->
  length (jitters tr) = length (sleeps tr) ->
  sleeps tr' = sleeps tr ->
  jitters tr' = jitters tr ++ extra ->
  pauses_follow tr'.
Proof.
  intros Hpf Hlen Hsl Hjit k seconds Hk.
  rewrite Hsl in Hk.
  destruct (Hpf k seconds Hk) as (j & w0 & Hj & Hw & Hsec).
  exists j, w0; repeat split; auto.
  rewrite Hjit, nth_error_app1; [exact Hj|].
  apply nth_error_Some; congruence.
Qed.

(** The pauses of a trace after one more retry. *)
Lemma pauses_follow_snoc (tr tr' : list event) (j : delay) (w0 : W) :
  pauses_follow tr ->
  length (jitters tr) = length (sleeps tr) ->
  j = fst (jitter w0) ->
  sleeps tr' = sleeps tr ++ [add (Gen.nth_yield next wait_gen (length (sleeps tr))) j] ->
  jitters tr' = jitters tr ++ [j] ->
  pauses_follow tr'.
Proof.
  intros Hpf Hlen Hw Hsl Hjit k seconds Hk.
  rewrite Hsl in Hk; rewrite Hjit.
  destruct (Nat.lt_ge_cases k (length (sleeps tr))) as [Hlt|Hge].
  - rewrite nth_error_app1 in Hk by exact Hlt.
    destruct (Hpf k seconds Hk) as (j' & w' & Hj & Hw' & Hsec).
    exists j', w'; repeat split; auto.
    rewrite nth_error_app1 by lia; exact Hj.
  - rewrite nth_error_app2 in Hk by exact Hge.
    destruct (k - length (sleeps tr))%nat as [|d] eqn:Hd.
    + assert (k = length (sleeps tr)) by lia; subst k.
      simpl in Hk; injection Hk as <-.
      exists j, w0; repeat split; auto.
      rewrite nth_error_app2 by lia.
      rewrite Hlen, Nat.sub_diag; reflexivity.
    + simpl in Hk; destruct d; discriminate.
Qed.

(** Each pause is the next value of the wait generator plus the jitter
    drawn for it, and there is one pause between two calls of the
    target. *)
Lemma pauses_loop (trig : res value -> bool) (args : Args) (body : M ctl) :
  (forall s, pass_shape trig args s (fst (body s)) (snd (body s))) ->
  forall fuel s,
    length (jitters (trace s)) = length (sleeps (trace s)) ->
    length (calls (trace s)) = length (sleeps (trace s)) ->
    wait s = Gen.advance next (length (sleeps (trace s))) wait_gen ->
    pauses_follow (trace s) ->
    let tr := trace (snd (while_true body fuel s)) in
    pauses_follow tr /\
    (length (sleeps tr) <= length (calls tr) <= S (length (sleeps tr)))%nat.
Proof.
  intros Hshape fuel s H1 H2 H3 H4.
  apply (shaped_loop_inv trig args body
           (fun s => length (jitters (trace s)) = length (sleeps (trace s)) /\
                     length (calls (trace s)) = length (sleeps (trace s)) /\
                     wait s = Gen.advance next (length (sleeps (trace s))) wait_gen /\
                     pauses_follow (trace s))
           (fun _ s => pauses_follow (trace s) /\
                       (length (sleeps (trace s)) <= length (calls (trace s))
                        <= S (length (sleeps (trace s))))%nat)
           Hshape); auto.
  - clear; intros s (Hj & Hc & _ & Hpf); split; [exact Hpf | lia].
  - clear; intros s r s' (Hj & Hc & Hw & Hpf) Hp.
    destruct Hp as [e w Ht | v r n w Ht Hn Hr | r0 r n w Ht Hx Hn Hr
                    | r0 e n w w0 Ht Hx | r0 w w0 Ht Hx]; simpl.
    + split.
      * apply (pauses_follow_keep (trace s) _ []); auto.
        -- rewrite sleeps_app; simpl; apply app_nil_r.
        -- rewrite jitters_app; reflexivity.
      * rewrite sleeps_app, calls_app, !length_app; simpl; lia.
    + assert (Hq : pauses_follow
                     (trace s ++ Called (Val v) :: handled OnSuccess 0 n (payload args (tries s))) /\
                   (length (sleeps (trace s ++ Called (Val v)
                                      :: handled OnSuccess 0 n (payload args (tries s))))
                    <= length (calls (trace s ++ Called (Val v)
                                        :: handled OnSuccess 0 n (payload args (tries s))))
                    <= S (length (sleeps (trace s ++ Called (Val v)
                                            :: handled OnSuccess 0 n (payload args (tries s))))))%nat).
      { split.
        - apply (pauses_follow_keep (trace s) _ []); auto.
          + rewrite sleeps_app; simpl; rewrite sleeps_handled; apply app_nil_r.
          + rewrite jitters_app; simpl; rewrite jitters_handled; reflexivity.
        - rewrite sleeps_app, calls_app, !length_app; simpl.
          rewrite sleeps_handled, calls_handled; simpl; lia. }
      destruct r as [[|v']|e]; [congruence | exact Hq | exact Hq].
    + assert (Hq : pauses_follow
                     (trace s ++ Called r0 :: handled OnGiveup 0 n (payload args (tries s + 1))) /\
                   (length (sleeps (trace s ++ Called r0
                                      :: handled OnGiveup 0 n (payload args (tries s + 1))))
                    <= length (calls (trace s ++ Called r0
                                        :: handled OnGiveup 0 n (payload args (tries s + 1))))
                    <= S (length (sleeps (trace s ++ Called r0
                                            :: handled OnGiveup 0 n (payload args (tries s + 1))))))%nat).
      { split.
        - apply (pauses_follow_keep (trace s) _ []); auto.
          + rewrite sleeps_app; simpl; rewrite sleeps_handled; apply app_nil_r.
          + rewrite jitters_app; simpl; rewrite jitters_handled; reflexivity.
        - rewrite sleeps_app, calls_app, !length_app; simpl.
          rewrite sleeps_handled, calls_handled; simpl; lia. }
      destruct r as [[|v']|e]; [congruence | exact Hq | exact Hq].
    + split.
      * apply (pauses_follow_keep (trace s) _ [fst (jitter w0)]); auto.
        -- rewrite sleeps_app; simpl; rewrite sleeps_handled; apply app_nil_r.
        -- rewrite jitters_app; simpl; rewrite jitters_handled; reflexivity.
      * rewrite sleeps_app, calls_app, !length_app; simpl.
        rewrite sleeps_handled, calls_handled; simpl; lia.
    + assert (Hsl : sleeps (trace s ++ Called r0 :: Drew (fst (next (wait s)))
                             :: Jittered (fst (jitter w0))
                             :: handled OnBackoff 0 (length backoff_hdlrs)
                                  (payload args (tries s + 1))
                             ++ [Slept (add (fst (next (wait s))) (fst (jitter w0)))]) =
                    sleeps (trace s) ++
                    [add (Gen.nth_yield next wait_gen (length (sleeps (trace s))))
                         (fst (jitter w0))]).
      { rewrite sleeps_app; simpl; rewrite sleeps_app, sleeps_handled; simpl.
        unfold Gen.nth_yield; rewrite <- Hw; reflexivity. }
      assert (Hjt : jitters (trace s ++ Called r0 :: Drew (fst (next (wait s)))
                              :: Jittered (fst (jitter w0))
                              :: handled OnBackoff 0 (length backoff_hdlrs)
                                   (payload args (tries s + 1))
                              ++ [Slept (add (fst (next (wait s))) (fst (jitter w0)))]) =
                    jitters (trace s) ++ [fst (jitter w0)]).
      { rewrite jitters_app; simpl; rewrite jitters_app, jitters_handled; reflexivity. }
      rewrite Hsl, Hjt, calls_app, !length_app; simpl.
      rewrite calls_app, calls_handled; simpl.
      repeat split; try lia.
      * rewrite Nat.add_1_r, Gen.advance_S, <- Hw; reflexivity.
      * apply (pauses_follow_snoc (trace s) _ (fst (jitter w0)) w0); auto.
Qed.

(** *** Loops whose target always triggers a retry *)

Lemma predicate_pass_retries (args : Args) :
  retries_on predicate_trigger args (predicate_pass args).
Proof.
  intros s Ht; rewrite predicate_pass_unfold.
  destruct (target args (world s)) as [[v|e] w]; simpl in *; [|discriminate].
  rewrite Ht; reflexivity.
Qed.

Lemma exception_pass_retries (args : Args) :
  retries_on exception_trigger args (exception_pass args).
Proof.
  intros s Ht; rewrite exception_pass_unfold.
  destruct (target args (world s)) as [[v|e] w]; simpl in *; [discriminate|].
  rewrite Ht; reflexivity.
Qed.



(** *** The decorated function *)

Lemma always_raises_triggers (args : Args) :
  always_raises_matching args -> forall w, exception_trigger (fst (target args w)) = true.
Proof.
  intros H w; destruct (H w) as (e & w' & Heq & He); rewrite Heq; exact He.
Qed.

Lemma always_unsatisfactory_triggers (args : Args) :
  always_unsatisfactory args -> forall w, predicate_trigger (fst (target args w)) = true.
Proof.
  intros H w; destruct (H w) as (v & w' & Heq & Hv); rewrite Heq; exact Hv.
Qed.

Lemma two_not_three (args : Args) (k : hkind) (i : nat) (a : list pyarg) :
  two_arguments args (Handled k i a) -> ~ three_arguments args (Handled k i a).
Proof.
  intros [t Ht] (t' & x & Hx & _); rewrite Ht in Hx.
  apply (f_equal (@length pyarg)) in Hx; discriminate.
Qed.

(** C1 (the code departs from it).  Whatever the target, the handlers and
    the fuel, every handler call either loop makes (success, backoff or
    give-up) passes exactly two arguments, [invoc] and the try count:
    the value or exception that triggered the event is never passed. *)
Theorem handlers_get_invoc_and_tries_only (fuel : nat) (args : Args) (w : W) :
  let only_two ev :=
    two_arguments args ev /\
    (forall k i a, ev = Handled k i a -> ~ three_arguments args ev) in
  Forall only_two (trace (snd (on_predicate fuel args w))) /\
  Forall only_two (trace (snd (on_exception fuel args w))).
Proof.
  intros only_two.
  assert (Hweak : forall tr, Forall (two_arguments args) tr -> Forall only_two tr).
  { intros tr; apply Forall_impl; intros ev Hev; split; [exact Hev|].
    intros k i a ->; apply two_not_three; exact Hev. }
  split; apply Hweak.
  - apply (two_arguments_loop predicate_trigger args);
      [apply predicate_pass_shape | apply Forall_nil].
  - apply (two_arguments_loop exception_trigger args);
      [apply exception_pass_shape | apply Forall_nil].
Qed.

(** C2 (as amended).  With [max_tries = m] for an integer [m >= 1], in
    both decorators and after any number of passes: [tries] is the number
    of calls of the target that triggered a retry so far, it never
    exceeds [m], and when it equals [m] the loop has ended and the last
    thing it did was to call a give-up handler with [tries = m]. *)
Theorem tries_capped_by_positive_max_tries (m : Z) (args : Args) (w : W) :
  1 <= m ->
  max_tries = Some m ->
  (forall fuel,
      tries (snd (on_predicate fuel args w)) =
      triggering predicate_trigger (trace (snd (on_predicate fuel args w)))) /\
  (forall fuel,
      tries (snd (on_exception fuel args w)) =
      triggering exception_trigger (trace (snd (on_exception fuel args w)))) /\
  tries_capped args m (fun fuel => on_predicate fuel args w) /\
  tries_capped args m (fun fuel => on_exception fuel args w).
Proof.
  intros Hm Hmax.
  split; [|split; [|split]].
  - intros fuel; apply (tries_count_loop predicate_trigger args);
      [apply predicate_pass_shape | reflexivity].
  - intros fuel; apply (tries_count_loop exception_trigger args);
      [apply exception_pass_shape | reflexivity].
  - intros fuel.
    apply (capped_loop predicate_trigger args _ m Hmax (predicate_pass_shape args)).
    simpl; lia.
  - intros fuel.
    apply (capped_loop exception_trigger args _ m Hmax (exception_pass_shape args)).
    simpl; lia.
Qed.

(** C6.  In [on_exception], when the first call of the target raises an
    exception that does not match the configured kinds, the call raises
    that exception at once: the target was called once, no handler was
    called, there was no pause, and [tries] is still 0. *)
Theorem on_exception_propagates_unmatched
        (args : Args) (w w' : W) (e : exn) (fuel : nat) :
  target args w = (Exc e, w') ->
  exception e = false ->
  on_exception (S fuel) args w = (Raised e, State w' [Called (Exc e)] 0 wait_gen).
Proof.
  intros Ht He; unfold on_exception; simpl.
  rewrite exception_pass_unfold; simpl; rewrite Ht, He; reflexivity.
Qed.

Lemma pauses_from_start (trig : res value -> bool) (args : Args) (body : M ctl) :
  (forall s, pass_shape trig args s (fst (body s)) (snd (body s))) ->
  forall fuel w,
    pauses_follow (trace (snd (while_true body fuel (start w)))) /\
    one_pause_per_retry (trace (snd (while_true body fuel (start w)))).
Proof.
  intros Hshape fuel w.
  apply (pauses_loop trig args body Hshape fuel (start w)); try reflexivity.
  intros k seconds Hk; destruct k; discriminate.
Qed.



(** C10.  Whatever [on_backoff] and [on_giveup] are (absent, one
    callable, an iterable), the backoff and give-up handler lists are the
    default logging handler followed by the supplied handlers in their
    order; the success handler list is the supplied handlers alone, and
    is empty when [on_success] is absent. *)
Theorem default_handler_first :
  backoff_hdlrs = _log_backoff :: supplied on_backoff /\
  giveup_hdlrs = _log_giveup :: supplied on_giveup /\
  success_hdlrs = supplied on_success /\
  (forall (d : handler) (hdlr : hopt), _handlers hdlr (Some d) = d :: supplied hdlr) /\
  (forall hdlr : hopt, _handlers hdlr None = supplied hdlr) /\
  _handlers HNone None = [].
Proof.
  split; [apply backoff_hdlrs_cons|].
  split; [apply giveup_hdlrs_cons|].
  split; [apply success_hdlrs_supplied|].
  split; [intros d [|h|hs]; reflexivity|].
  split; [intros [|h|hs]; reflexivity | reflexivity].
Qed.

(** *** One pass, in detail *)













(** *** What the loops do whatever the target and the handlers do *)

(** X6.  [on_predicate] does not intercept exceptions: when the first
    call of the target raises, the decorated call raises that exception
    at once, after this one call, without calling a handler and without
    a pause. *)
Theorem on_predicate_propagates (args : Args) (w w' : W) (e : exn) (fuel : nat) :
  target args w = (Exc e, w') ->
  on_predicate (S fuel) args w = (Raised e, State w' [Called (Exc e)] 0 wait_gen).
Proof.
  intros Ht; unfold on_predicate; simpl.
  rewrite predicate_pass_unfold; simpl; rewrite Ht; reflexivity.
Qed.

Lemma giveup_only_at_max_loop (trig : res value -> bool) (args : Args) (body : M ctl) :
  (forall s, pass_shape trig args s (fst (body s)) (snd (body s))) ->
  forall fuel w, giveup_only_at_max args (trace (snd (while_true body fuel (start w)))).
Proof.
  intros Hshape fuel w.
  apply (shaped_loop_inv trig args body
           (fun s => 0 <= tries s /\ handled_by OnGiveup (trace s) = [])
           (fun _ s => giveup_only_at_max args (trace s)) Hshape).
  - intros s [_ Hnone] i a Hin; rewrite Hnone in Hin; destruct Hin.
  - clear; intros s r s' [Ht Hnone] Hp.
    assert (Hkeep : forall k rest,
               k <> OnGiveup ->
               forall n t,
                 handled_by OnGiveup (handled k 0 n (payload args t) ++ rest) =
                 handled_by OnGiveup rest).
    { intros k rest Hk n t; rewrite handled_by_app, handled_by_handled.
      destruct k; simpl; congruence. }
    destruct Hp as [e w Ht' | v r n w Ht' Hn Hr | r0 r n w Ht' Hx Hn Hr
                    | r0 e n w w0 Ht' Hx | r0 w w0 Ht' Hx]; simpl.
    + intros i a Hin; rewrite handled_by_app, Hnone in Hin; destruct Hin.
    + assert (Hq : giveup_only_at_max args
                     (trace s ++ Called (Val v)
                        :: handled OnSuccess 0 n (payload args (tries s)))).
      { intros i a Hin; rewrite handled_by_app, Hnone in Hin; simpl in Hin.
        rewrite handled_by_handled in Hin; destruct Hin. }
      destruct r as [[|v']|e]; [congruence | exact Hq | exact Hq].
    + assert (Hq : giveup_only_at_max args
                     (trace s ++ Called r0
                        :: handled OnGiveup 0 n (payload args (tries s + 1)))).
      { intros i a Hin; rewrite handled_by_app, Hnone in Hin; simpl in Hin.
        rewrite handled_by_handled in Hin; simpl in Hin.
        apply in_map_iff in Hin; destruct Hin as (p & Heq & _).
        injection Heq as _ <-.
        unfold exhausted in Hx; destruct max_tries as [m|]; [|discriminate].
        apply Z.eqb_eq in Hx; exists m; repeat split; [lia | rewrite Hx; reflexivity]. }
      destruct r as [[|v']|e]; [congruence | exact Hq | exact Hq].
    + intros i a Hin; rewrite handled_by_app, Hnone in Hin; simpl in Hin.
      rewrite handled_by_handled in Hin; destruct Hin.
    + split; [lia|].
      rewrite handled_by_app, Hnone; simpl.
      rewrite (Hkeep OnBackoff) by discriminate; reflexivity.
  - simpl; split; [lia | reflexivity].
Qed.

(** X7.  In both decorators, whatever the target and the handlers do, a
    give-up handler is only ever called when [max_tries] is an integer
    of 1 or more, and then with [tries] equal to it; with
    [max_tries=None] no give-up handler is ever called. *)
Theorem giveup_only_at_max_tries (fuel : nat) (args : Args) (w : W) :
  let trp := trace (snd (on_predicate fuel args w)) in
  let tre := trace (snd (on_exception fuel args w)) in
  giveup_only_at_max args trp /\
  giveup_only_at_max args tre /\
  (max_tries = None ->
   handled_by OnGiveup trp = [] /\ handled_by OnGiveup tre = []).
Proof.
  intros trp tre.
  assert (Hp : giveup_only_at_max args trp)
    by apply (giveup_only_at_max_loop predicate_trigger args _ (predicate_pass_shape args)).
  assert (He : giveup_only_at_max args tre)
    by apply (giveup_only_at_max_loop exception_trigger args _ (exception_pass_shape args)).
  split; [exact Hp|]; split; [exact He|].
  intros Hnone; split.
  - destruct (handled_by OnGiveup trp) as [|[i a] l] eqn:Hl; [reflexivity|].
    destruct (Hp i a) as (m & Hm & _); [rewrite Hl; left; reflexivity | congruence].
  - destruct (handled_by OnGiveup tre) as [|[i a] l] eqn:Hl; [reflexivity|].
    destruct (He i a) as (m & Hm & _); [rewrite Hl; left; reflexivity | congruence].
Qed.

Lemma at_most_calls_loop (trig : res value -> bool) (args : Args) (body : M ctl) (m : Z) :
  1 <= m ->
  max_tries = Some m ->
  (forall s, pass_shape trig args s (fst (body s)) (snd (body s))) ->
  forall fuel w, at_most_calls m (trace (snd (while_true body fuel (start w)))).
Proof.
  intros Hm Hmax Hshape fuel w.
  apply (shaped_loop_inv trig args body
           (fun s => Z.of_nat (length (calls (trace s))) = tries s /\
                     length (sleeps (trace s)) = length (calls (trace s)) /\
                     tries s < m)
           (fun _ s => at_most_calls m (trace s)) Hshape).
  - intros s (Hc & Hs & Ht); unfold at_most_calls; lia.
  - clear - Hmax; intros s r s' (Hc & Hs & Ht) Hp; unfold at_most_calls.
    destruct Hp as [e w Ht' | v r n w Ht' Hn Hr | r0 r n w Ht' Hx Hn Hr
                    | r0 e n w w0 Ht' Hx | r0 w w0 Ht' Hx]; simpl.
    + rewrite calls_app, sleeps_app, !length_app; simpl; lia.
    + assert (Hq : Z.of_nat (length (calls (trace s ++ Called (Val v)
                       :: handled OnSuccess 0 n (payload args (tries s))))) <= m /\
                   Z.of_nat (length (sleeps (trace s ++ Called (Val v)
                       :: handled OnSuccess 0 n (payload args (tries s))))) <= m - 1).
      { rewrite calls_app, sleeps_app, !length_app; simpl.
        rewrite calls_handled, sleeps_handled; simpl; lia. }
      destruct r as [[|v']|e]; [congruence | exact Hq | exact Hq].
    + apply (exhausted_iff m) in Hx; [|exact Hmax].
      assert (Hq : Z.of_nat (length (calls (trace s ++ Called r0
                       :: handled OnGiveup 0 n (payload args (tries s + 1))))) <= m /\
                   Z.of_nat (length (sleeps (trace s ++ Called r0
                       :: handled OnGiveup 0 n (payload args (tries s + 1))))) <= m - 1).
      { rewrite calls_app, sleeps_app, !length_app; simpl.
        rewrite calls_handled, sleeps_handled; simpl; lia. }
      destruct r as [[|v']|e]; [congruence | exact Hq | exact Hq].
    + apply (exhausted_false_iff m) in Hx; [|exact Hmax].
      rewrite calls_app, sleeps_app, !length_app; simpl.
      rewrite calls_handled, sleeps_handled; simpl; lia.
    + apply (exhausted_false_iff m) in Hx; [|exact Hmax].
      rewrite calls_app, sleeps_app, !length_app; simpl.
      rewrite calls_app, sleeps_app, !length_app, calls_handled, sleeps_handled; simpl.
      lia.
  - simpl; lia.
Qed.

(** X8.  With [max_tries = m >= 1], in both decorators and whatever the
    target and the handlers do, the target is called at most [m] times
    and there are at most [m - 1] pauses. *)
Theorem calls_bounded_by_max_tries (m : Z) (fuel : nat) (args : Args) (w : W) :
  1 <= m ->
  max_tries = Some m ->
  at_most_calls m (trace (snd (on_predicate fuel args w))) /\
  at_most_calls m (trace (snd (on_exception fuel args w))).
Proof.
  intros Hm Hmax; split.
  - apply (at_most_calls_loop predicate_trigger args _ m Hm Hmax (predicate_pass_shape args)).
  - apply (at_most_calls_loop exception_trigger args _ m Hm Hmax (exception_pass_shape args)).
Qed.

Lemma ends_one_way_loop (trig : res value -> bool) (args : Args) (body : M ctl) :
  (forall s, pass_shape trig args s (fst (body s)) (snd (body s))) ->
  forall fuel w, ends_one_way (while_true body fuel (start w)).
Proof.
  intros Hshape fuel w.
  apply (shaped_loop_inv trig args body
           (fun s => handled_by OnSuccess (trace s) = [] /\
                     handled_by OnGiveup (trace s) = [])
           (fun o s => (handled_by OnSuccess (trace s) = [] \/
                        handled_by OnGiveup (trace s) = []) /\
                       (o = Diverging ->
                        handled_by OnSuccess (trace s) = [] /\
                        handled_by OnGiveup (trace s) = [])) Hshape).
  - intros s [Hs Hg]; split; [left; exact Hs | intros _; split; assumption].
  - clear; intros s r s' [Hs Hg] Hp.
    destruct Hp as [e w Ht' | v r n w Ht' Hn Hr | r0 r n w Ht' Hx Hn Hr
                    | r0 e n w w0 Ht' Hx | r0 w w0 Ht' Hx]; simpl.
    + split; [left|discriminate].
      rewrite handled_by_app, Hs; reflexivity.
    + assert (Hq : handled_by OnGiveup
                     (trace s ++ Called (Val v)
                        :: handled OnSuccess 0 n (payload args (tries s))) = []).
      { rewrite handled_by_app, Hg; simpl; rewrite handled_by_handled; reflexivity. }
      destruct r as [[|v']|e]; [congruence| |]; (split; [right; exact Hq | discriminate]).
    + assert (Hq : handled_by OnSuccess
                     (trace s ++ Called r0
                        :: handled OnGiveup 0 n (payload args (tries s + 1))) = []).
      { rewrite handled_by_app, Hs; simpl; rewrite handled_by_handled; reflexivity. }
      destruct r as [[|v']|e]; [congruence| |]; (split; [left; exact Hq | discriminate]).
    + split; [left|discriminate].
      rewrite handled_by_app, Hs; simpl; rewrite handled_by_handled; reflexivity.
    + split.
      * rewrite handled_by_app, Hs; simpl.
        rewrite handled_by_app, handled_by_handled; reflexivity.
      * rewrite handled_by_app, Hg; simpl.
        rewrite handled_by_app, handled_by_handled; reflexivity.
  - split; reflexivity.
Qed.

(** X9.  In both decorators, whatever the target and the handlers do,
    one call of the decorated function never calls both a success
    handler and a give-up handler, and calls neither while the loop is
    still running. *)
Theorem success_and_giveup_exclusive (fuel : nat) (args : Args) (w : W) :
  ends_one_way (on_predicate fuel args w) /\
  ends_one_way (on_exception fuel args w).
Proof.
  split.
  - apply (ends_one_way_loop predicate_trigger args _ (predicate_pass_shape args)).
  - apply (ends_one_way_loop exception_trigger args _ (exception_pass_shape args)).
Qed.




Lemma draws_app (a b : list event) : draws (a ++ b) = draws a ++ draws b.
Proof.
  induction a as [|ev a IH]; [reflexivity|].
  destruct ev; simpl; rewrite IH; reflexivity.
Qed.

Lemma draws_handled (k : hkind) (i n : nat) (a : list pyarg) : draws (handled k i n a) = [].
Proof. revert i; induction n as [|n IH]; intros i; [reflexivity | apply IH]. Qed.






Lemma take_snoc (g : G) (n : nat) :
  Gen.take next (S n) g = Gen.take next n g ++ [Gen.nth_yield next g n].
Proof.
  revert g; induction n as [|n IH]; intros g; [reflexivity|].
  change (Gen.take next (S (S n)) g)
    with (fst (next g) :: Gen.take next (S n) (snd (next g))).
  rewrite IH; reflexivity.
Qed.

Lemma schedule_followed_loop (trig : res value -> bool) (args : Args) (body : M ctl) :
  (forall s, pass_shape trig args s (fst (body s)) (snd (body s))) ->
  forall fuel w, schedule_followed (snd (while_true body fuel (start w))).
Proof.
  intros Hshape fuel w.
  apply (shaped_loop_inv trig args body schedule_followed
           (fun _ s => schedule_followed s) Hshape); auto.
  - clear; intros s r s' (Hd & Hw & Hj) Hp.
    assert (Hsame : forall w' t rest,
               draws rest = [] -> jitters rest = [] ->
               schedule_followed (State w' (trace s ++ rest) t (wait s))).
    { intros w' t rest Hdr Hjr; unfold schedule_followed; simpl.
      rewrite draws_app, jitters_app, Hdr, Hjr, !app_nil_r; auto. }
    assert (Hstep : forall w' t j r0 rest,
               draws rest = [] -> jitters rest = [] ->
               schedule_followed
                 (State w'
                    (trace s ++ Called r0 :: Drew (fst (next (wait s))) :: Jittered j :: rest)
                    t (snd (next (wait s))))).
    { intros w' t j r0 rest Hdr Hjr; unfold schedule_followed; simpl.
      rewrite draws_app, jitters_app; simpl; rewrite Hdr, Hjr, !length_app; simpl.
      rewrite Nat.add_1_r, take_snoc, Gen.advance_S, <- Hd, <- Hw.
      unfold Gen.nth_yield; rewrite <- Hw.
      split; [reflexivity|]; split; [reflexivity | lia]. }
    destruct Hp as [e w Ht' | v r n w Ht' Hn Hr | r0 r n w Ht' Hx Hn Hr
                    | r0 e n w w0 Ht' Hx | r0 w w0 Ht' Hx].
    + apply Hsame; reflexivity.
    + assert (Hq : schedule_followed
                     (State w
                        (trace s ++ Called (Val v)
                           :: handled OnSuccess 0 n (payload args (tries s)))
                        (tries s) (wait s)))
        by (apply Hsame; simpl; [apply draws_handled | apply jitters_handled]).
      destruct r as [[|v']|e]; [congruence | exact Hq | exact Hq].
    + assert (Hq : schedule_followed
                     (State w
                        (trace s ++ Called r0
                           :: handled OnGiveup 0 n (payload args (tries s + 1)))
                        (tries s + 1) (wait s)))
        by (apply Hsame; simpl; [apply draws_handled | apply jitters_handled]).
      destruct r as [[|v']|e]; [congruence | exact Hq | exact Hq].
    + apply Hstep; [apply draws_handled | apply jitters_handled].
    + apply Hstep.
      * rewrite draws_app, draws_handled; reflexivity.
      * rewrite jitters_app, jitters_handled; reflexivity.
  - unfold schedule_followed; simpl; auto.
Qed.

(** X13.  In both decorators, whatever the target and the handlers do,
    the wait generator is advanced exactly once per backoff: the values
    drawn are the first values of a fresh generator in order, none
    skipped or repeated, [jitter] is called once for each, and [wait] is
    the generator frame after them. *)
Theorem wait_generator_advances_once_per_backoff (fuel : nat) (args : Args) (w : W) :
  schedule_followed (snd (on_predicate fuel args w)) /\
  schedule_followed (snd (on_exception fuel args w)).
Proof.
  split.
  - apply (schedule_followed_loop predicate_trigger args _ (predicate_pass_shape args)).
  - apply (schedule_followed_loop exception_trigger args _ (exception_pass_shape args)).
Qed.

(** *** Handlers that raise *)

Lemma for_hdlrs_stops (k : hkind) (args : Args) (t : Z) (before : list handler)
      (h : handler) (rest : list handler) (e : exn) :
  Forall (quiet args) before ->
  raising e h ->
  forall (i : nat) (s : state),
  exists w : W,
    for_hdlrs k i (before ++ h :: rest) (payload args t) s =
    (Exc e,
     State w (trace s ++ handled k i (S (length before)) (payload args t))
       (tries s) (wait s)).
Proof.
  intros Hq Hr; induction Hq as [|q before Hq1 _ IH]; intros i s.
  - simpl; unfold bind, call_hdlr.
    specialize (Hr (payload args t) (world s)).
    destruct (h (payload args t) (world s)) as [r w1]; simpl in Hr; subst r.
    exists w1; reflexivity.
  - simpl; unfold bind, call_hdlr.
    specialize (Hq1 t (world s)).
    destruct (q (payload args t) (world s)) as [r w1]; simpl in Hq1; subst r.
    destruct (IH (S i) (set_world w1 (log (Handled k i (payload args t)) s))) as (w & Heq).
    exists w; rewrite Heq; simpl; rewrite <- app_assoc; reflexivity.
Qed.

(** X14.  When the first call of the target succeeds and a success
    handler raises [e] (the ones before it returning normally), the
    decorated call raises [e] in both decorators: the value of the
    target is lost and the success handlers after the raising one are
    not called. *)
Theorem raising_success_handler_aborts
        (args : Args) (w w' : W) (v : value) (fuel : nat)
        (before : list handler) (h : handler) (e : exn) :
  target args w = (Val v, w') ->
  first_raising args success_hdlrs before h e ->
  (predicate v = false ->
   aborted_by OnSuccess args before 0 e (on_predicate (S fuel) args w)) /\
  aborted_by OnSuccess args before 0 e (on_exception (S fuel) args w).
Proof.
  intros Ht (Hq & Hr & rest & Hhs).
  assert (Hrun : exists w2,
             after_success args v (called (Val v) w' (start w)) =
             (Exc e,
              State w2 ([Called (Val v)] ++ handled OnSuccess 0 (S (length before))
                                         (payload args 0))
                0 wait_gen)).
  { unfold after_success, bind, get_tries; rewrite Hhs.
    destruct (for_hdlrs_stops OnSuccess args 0 before h rest e Hq Hr 0
                (called (Val v) w' (start w))) as (w2 & Heq).
    unfold payload in Heq; simpl in *; rewrite Heq; exists w2; reflexivity. }
  destruct Hrun as (w2 & Hrun).
  assert (Hab : aborted_by OnSuccess args before 0 e
                  (Raised e,
                   State w2 ([Called (Val v)] ++ handled OnSuccess 0 (S (length before))
                                              (payload args 0))
                     0 wait_gen)).
  { split; [reflexivity|].
    cbn [snd trace]; rewrite handled_by_app, handled_by_handled; reflexivity. }
  split; [intros Hp|].
  - unfold on_predicate; simpl.
    rewrite predicate_pass_unfold; simpl; rewrite Ht, Hp, Hrun; exact Hab.
  - unfold on_exception; simpl.
    rewrite exception_pass_unfold; simpl; rewrite Ht, Hrun; exact Hab.
Qed.

(** [j] backoffs of a loop whose target always triggers a retry. *)
Lemma backoffs_only (trig : res value -> bool) (args : Args) (body : M ctl) (m : Z) :
  max_tries = Some m ->
  retries_on trig args body ->
  Forall (quiet args) backoff_hdlrs ->
  (forall w, trig (fst (target args w)) = true) ->
  forall (j fuel : nat) (s : state),
    tries s + Z.of_nat j < m ->
    exists s' : state,
      while_true body (j + fuel) s = while_true body fuel s' /\
      tries s' = tries s + Z.of_nat j /\
      length (calls (trace s')) = (length (calls (trace s)) + j)%nat /\
      handled_by OnGiveup (trace s') = handled_by OnGiveup (trace s).
Proof.
  intros Hmax Hbody Hqb Htrig j.
  induction j as [|j IH]; intros fuel s Ht.
  - exists s; simpl; repeat split; auto; lia.
  - simpl; rewrite (Hbody s (Htrig (world s))).
    set (r0 := fst (target args (world s))).
    set (w := snd (target args (world s))).
    destruct (after_trigger_backoff_quiet args
                (fun s' => (final r0, s')) (called r0 w s) Hqb) as (w' & Heq).
    { apply (exhausted_false_iff m); [exact Hmax | simpl; lia]. }
    rewrite Heq; simpl.
    match goal with
    | |- context [while_true body (j + fuel) ?s1] =>
        destruct (IH fuel s1) as (s' & Hrun & Htries & Hcalls & Hgive); [simpl; lia|]
    end.
    exists s'; split; [exact Hrun|].
    rewrite Htries, Hcalls, Hgive; simpl.
    rewrite <- !app_assoc, calls_app, handled_by_app; simpl.
    rewrite calls_app, handled_by_app, calls_handled, handled_by_handled; simpl.
    rewrite !length_app; simpl.
    repeat split; auto; try lia.
    apply app_nil_r.
Qed.

Lemma raising_giveup_loop (trig : res value -> bool) (args : Args) (body : M ctl) (m : Z)
      (before : list handler) (h : handler) (e : exn) :
  1 <= m ->
  max_tries = Some m ->
  retries_on trig args body ->
  Forall (quiet args) backoff_hdlrs ->
  (forall w, trig (fst (target args w)) = true) ->
  first_raising args giveup_hdlrs before h e ->
  forall fuel w,
    (Z.to_nat m <= fuel)%nat ->
    aborted_by OnGiveup args before m e (while_true body fuel (start w)) /\
    length (calls (trace (snd (while_true body fuel (start w))))) = Z.to_nat m.
Proof.
  intros Hm Hmax Hbody Hqb Htrig (Hq & Hr & rest & Hhs) fuel w Hfuel.
  replace fuel with ((Z.to_nat m - 1) + S (fuel - Z.to_nat m))%nat by lia.
  destruct (backoffs_only trig args body m Hmax Hbody Hqb Htrig
              (Z.to_nat m - 1) (S (fuel - Z.to_nat m)) (start w))
    as (s & Hrun & Htries & Hcalls & Hgive); [simpl; lia|].
  rewrite Hrun; simpl in Htries, Hcalls, Hgive; simpl.
  rewrite (Hbody s (Htrig (world s))).
  set (r0 := fst (target args (world s))).
  set (w1 := snd (target args (world s))).
  assert (Hx : exhausted (tries s + 1) = true)
    by (apply (exhausted_iff m); [exact Hmax | lia]).
  unfold after_trigger, bind, incr_tries, get_tries; simpl; rewrite Hx, Hhs.
  destruct (for_hdlrs_stops OnGiveup args (tries s + 1) before h rest e Hq Hr 0
              (State w1 (trace s ++ [Called r0]) (tries s + 1) (wait s))) as (w2 & Heq).
  unfold aborted_by, each_once.
  remember (S (length before)) as n eqn:Hn.
  unfold payload in Heq; simpl in *; rewrite Heq; simpl.
  rewrite <- !app_assoc, handled_by_app, calls_app, Hgive; simpl.
  rewrite handled_by_handled, calls_handled, length_app; simpl.
  replace (tries s + 1) with m by lia.
  repeat split; auto; lia.
Qed.

(** X15.  With [max_tries = m >= 1], backoff handlers that return
    normally and a target that triggers a retry at every call, when a
    give-up handler raises [e] (the ones before it returning normally)
    the decorated call raises [e] after [m] calls of the target:
    [on_exception] does not re-raise the exception of the target,
    [on_predicate] does not return the last value, and the give-up
    handlers after the raising one are not called. *)
Theorem raising_giveup_handler_aborts
        (m : Z) (args : Args) (fuel : nat) (w : W)
        (before : list handler) (h : handler) (e : exn) :
  1 <= m ->
  max_tries = Some m ->
  Forall (quiet args) backoff_hdlrs ->
  first_raising args giveup_hdlrs before h e ->
  (Z.to_nat m <= fuel)%nat ->
  (always_unsatisfactory args ->
   aborted_by OnGiveup args before m e (on_predicate fuel args w) /\
   length (calls (trace (snd (on_predicate fuel args w)))) = Z.to_nat m) /\
  (always_raises_matching args ->
   aborted_by OnGiveup args before m e (on_exception fuel args w) /\
   length (calls (trace (snd (on_exception fuel args w)))) = Z.to_nat m).
Proof.
  intros Hm Hmax Hqb Hfirst Hfuel; split; intros H.
  - apply (raising_giveup_loop predicate_trigger args _ m before h e); auto.
    + apply predicate_pass_retries.
    + apply always_unsatisfactory_triggers; exact H.
  - apply (raising_giveup_loop exception_trigger args _ m before h e); auto.
    + apply exception_pass_retries.
    + apply always_raises_triggers; exact H.
Qed.

(** *** Giving up, looping and succeeding at once *)











Lemma succeeded_at_once_intro (args : Args) (v : value) (w : W) :
  succeeded_at_once args v
    (Returned v,
     State w (Called (Val v) :: handled OnSuccess 0 (length success_hdlrs) (payload args 0))
       0 wait_gen).
Proof.
  unfold succeeded_at_once; simpl.
  rewrite calls_handled, sleeps_handled, !handled_by_handled, success_hdlrs_supplied; simpl.
  repeat split; reflexivity.
Qed.

Lemma no_retry_intro (args : Args) (v : value) (o : outcome) (n : nat) (w : W) :
  (n <= length success_hdlrs)%nat ->
  (o = Returned v \/ exists e, o = Raised e) ->
  no_retry args v
    (o, State w (Called (Val v) :: handled OnSuccess 0 n (payload args 0)) 0 wait_gen).
Proof.
  intros Hn Ho; unfold no_retry; simpl.
  rewrite calls_handled, sleeps_handled, !handled_by_handled; simpl.
  repeat split; auto.
  exists n; split; [rewrite <- success_hdlrs_supplied; exact Hn | reflexivity].
Qed.

Lemma after_success_start (args : Args) (v : value) (w w' : W) :
  exists (n : nat) (r : res ctl) (w2 : W),
    after_success args v (called (Val v) w' (start w)) =
    (r, State w2 (Called (Val v) :: handled OnSuccess 0 n (payload args 0)) 0 wait_gen) /\
    (n <= length success_hdlrs)%nat /\
    (r = Val (Return v) \/ exists e, r = Exc e).
Proof.
  destruct (for_hdlrs_run OnSuccess (payload args 0) success_hdlrs 0
              (called (Val v) w' (start w))) as (n & r & w2 & Heq & Hn & _ & _).
  unfold after_success, bind, get_tries.
  unfold payload in Heq; simpl in *; rewrite Heq.
  destruct r as [[]|e]; simpl.
  - exists n, (Val (Return v)), w2; repeat split; auto.
  - exists n, (Exc e), w2; repeat split; auto; right; exists e; reflexivity.
Qed.

(** C9 (as amended).  When the first call of the target succeeds (its
    value does not satisfy the predicate in [on_predicate]; it returns
    in [on_exception]), there is no retry whatever the handlers do: the
    target is called once, no backoff or give-up handler is called,
    there is no pause, and success handlers are called in their order
    with [tries = 0], each at most once.  When moreover the success
    handlers of the caller return normally, every one of them is called
    exactly once and the call returns the value of the target. *)
Theorem first_attempt_success (args : Args) (w w' : W) (v : value) (fuel : nat) :
  target args w = (Val v, w') ->
  ((predicate v = false -> no_retry args v (on_predicate (S fuel) args w)) /\
   no_retry args v (on_exception (S fuel) args w)) /\
  (Forall (quiet args) (supplied on_success) ->
   (predicate v = false -> succeeded_at_once args v (on_predicate (S fuel) args w)) /\
   succeeded_at_once args v (on_exception (S fuel) args w)).
Proof.
  intros Ht; split.
  - destruct (after_success_start args v w w') as (n & r & w2 & Heq & Hn & Hr).
    split; [intros Hp|].
    + unfold on_predicate; simpl; rewrite predicate_pass_unfold; simpl.
      rewrite Ht, Hp, Heq.
      destruct Hr as [-> | [e ->]]; apply no_retry_intro; auto.
      right; exists e; reflexivity.
    + unfold on_exception; simpl; rewrite exception_pass_unfold; simpl.
      rewrite Ht, Heq.
      destruct Hr as [-> | [e ->]]; apply no_retry_intro; auto.
      right; exists e; reflexivity.
  - intros Hq.
    assert (Hq' : Forall (quiet args) success_hdlrs)
      by (rewrite success_hdlrs_supplied; exact Hq).
    destruct (after_success_quiet args v (called (Val v) w' (start w)) Hq') as (w2 & Heq).
    split; [intros Hp|].
    + unfold on_predicate; simpl.
      rewrite predicate_pass_unfold; simpl; rewrite Ht, Hp, Heq; simpl.
      apply succeeded_at_once_intro.
    + unfold on_exception; simpl.
      rewrite exception_pass_unfold; simpl; rewrite Ht, Heq; simpl.
      apply succeeded_at_once_intro.
Qed.

(** *** When the default loggers fail *)

Lemma log_backoff_formatting (args : Args) (t : Z) (w : W) (e : exn) :
  _invoc_repr_call (Invoc target args) = Exc e ->
  _log_backoff (payload args t) w = (Exc e, w).
Proof. intros H; unfold _log_backoff, payload; rewrite H; reflexivity. Qed.

Lemma log_giveup_formatting (args : Args) (t : Z) (w : W) (e : exn) :
  _invoc_repr_call (Invoc target args) = Exc e ->
  _log_giveup (payload args t) w = (Exc e, w).
Proof. intros H; unfold _log_giveup, payload; rewrite H; reflexivity. Qed.

Lemma after_trigger_formatting_backoff (args : Args) (leave : M ctl) (r0 : res value)
      (w w' : W) (e : exn) :
  _invoc_repr_call (Invoc target args) = Exc e ->
  exhausted 1 = false ->
  after_trigger args leave (called r0 w' (start w)) =
  (Exc e,
   State (snd (jitter w'))
     [Called r0; Drew (fst (next wait_gen)); Jittered (fst (jitter w'));
      Handled OnBackoff 0 (payload args 1)]
     1 (snd (next wait_gen))).
Proof.
  intros Hrepr Hx.
  pose proof (log_backoff_formatting args 1 (snd (jitter w')) e Hrepr) as Hlog.
  unfold payload in Hlog.
  unfold after_trigger; rewrite backoff_hdlrs_cons.
  set (lb := _log_backoff) in *; clearbody lb.
  unfold bind, incr_tries, get_tries, next_wait, call_jitter; simpl.
  rewrite Hx; simpl.
  destruct (next wait_gen) as [d g]; simpl.
  destruct (jitter w') as [j w1]; simpl in *.
  unfold bind, call_hdlr; simpl; rewrite Hlog; reflexivity.
Qed.

Lemma after_trigger_formatting_giveup (args : Args) (leave : M ctl) (r0 : res value)
      (w w' : W) (e : exn) :
  _invoc_repr_call (Invoc target args) = Exc e ->
  exhausted 1 = true ->
  after_trigger args leave (called r0 w' (start w)) =
  (Exc e, State w' [Called r0; Handled OnGiveup 0 (payload args 1)] 1 wait_gen).
Proof.
  intros Hrepr Hx.
  pose proof (log_giveup_formatting args 1 w' e Hrepr) as Hlog.
  unfold payload in Hlog.
  unfold after_trigger; rewrite giveup_hdlrs_cons.
  set (lg := _log_giveup) in *; clearbody lg.
  unfold bind, incr_tries, get_tries; simpl.
  rewrite Hx; simpl.
  unfold bind, call_hdlr; simpl; rewrite Hlog; reflexivity.
Qed.

(** X19.  When formatting the invocation raises [e] (an argument whose
    ["%s"] formatting raises, a decorated callable without a
    [__name__]), the default backoff logger raises [e] and ends the
    call: with [max_tries] other than 1 and a first call of the target
    that triggers a retry, the decorated call raises [e].  The target
    has been called once, the wait generator advanced once and [jitter]
    called once; no handler of the caller is called, there is no pause
    and no second call. *)
Theorem formatting_failure_aborts_backoff (args : Args) (w w' : W) (r0 : res value)
        (e : exn) (fuel : nat) :
  _invoc_repr_call (Invoc target args) = Exc e ->
  target args w = (r0, w') ->
  max_tries <> Some 1 ->
  let s' :=
    State (snd (jitter w'))
      [Called r0; Drew (fst (next wait_gen)); Jittered (fst (jitter w'));
       Handled OnBackoff 0 (payload args 1)]
      1 (snd (next wait_gen)) in
  (predicate_trigger r0 = true -> on_predicate (S fuel) args w = (Raised e, s')) /\
  (exception_trigger r0 = true -> on_exception (S fuel) args w = (Raised e, s')).
Proof.
  intros Hrepr Ht Hmax s'.
  assert (Hx : exhausted 1 = false).
  { unfold exhausted; destruct max_tries as [m|]; [|reflexivity].
    apply Z.eqb_neq; intros <-; apply Hmax; reflexivity. }
  split; intros Htrig.
  - unfold on_predicate; cbn [while_true].
    rewrite predicate_pass_unfold; cbn [start world]; rewrite Ht.
    destruct r0 as [v|e0]; [|discriminate].
    cbn [predicate_trigger] in Htrig; rewrite Htrig.
    rewrite (after_trigger_formatting_backoff args _ (Val v) w w' e Hrepr Hx).
    reflexivity.
  - unfold on_exception; cbn [while_true].
    rewrite exception_pass_unfold; cbn [start world]; rewrite Ht.
    destruct r0 as [v|e0]; [discriminate|].
    cbn [exception_trigger] in Htrig; rewrite Htrig.
    rewrite (after_trigger_formatting_backoff args _ (Exc e0) w w' e Hrepr Hx).
    reflexivity.
Qed.

(** X20.  When formatting the invocation raises [e] and [max_tries] is
    1, the default give-up logger raises [e] when the first call of the
    target triggers a retry: [on_exception] raises [e] instead of the
    exception of the target, [on_predicate] raises [e] instead of
    returning the value, and no give-up handler of the caller is
    called. *)
Theorem formatting_failure_aborts_giveup (args : Args) (w w' : W) (r0 : res value)
        (e : exn) (fuel : nat) :
  _invoc_repr_call (Invoc target args) = Exc e ->
  target args w = (r0, w') ->
  max_tries = Some 1 ->
  let s' := State w' [Called r0; Handled OnGiveup 0 (payload args 1)] 1 wait_gen in
  (predicate_trigger r0 = true -> on_predicate (S fuel) args w = (Raised e, s')) /\
  (exception_trigger r0 = true -> on_exception (S fuel) args w = (Raised e, s')).
Proof.
  intros Hrepr Ht Hmax s'.
  assert (Hx : exhausted 1 = true) by (unfold exhausted; rewrite Hmax; reflexivity).
  split; intros Htrig.
  - unfold on_predicate; cbn [while_true].
    rewrite predicate_pass_unfold; cbn [start world]; rewrite Ht.
    destruct r0 as [v|e0]; [|discriminate].
    cbn [predicate_trigger] in Htrig; rewrite Htrig.
    rewrite (after_trigger_formatting_giveup args _ (Val v) w w' e Hrepr Hx).
    reflexivity.
  - unfold on_exception; cbn [while_true].
    rewrite exception_pass_unfold; cbn [start world]; rewrite Ht.
    destruct r0 as [v|e0]; [discriminate|].
    cbn [exception_trigger] in Htrig; rewrite Htrig.
    rewrite (after_trigger_formatting_giveup args _ (Exc e0) w w' e Hrepr Hx).
    reflexivity.
Qed.

End Engine.

Arguments Val {exn A} a.
Arguments Exc {exn A} e.
Arguments Invoc {W value exn Args} inv_target inv_args.
Arguments AInvoc {W value exn Args} i.
Arguments AInt {W value exn Args} n.
Arguments AValue {W value exn Args} v.
Arguments AExn {W value exn Args} e.
Arguments HNone {W value exn Args}.
Arguments HCallable {W value exn Args} h.
Arguments HIterable {W value exn Args} hs.
Arguments Called {W value exn delay Args} r.
Arguments Drew {W value exn delay Args} d.
Arguments Jittered {W value exn delay Args} j.
Arguments Handled {W value exn delay Args} k i args.
Arguments Slept {W value exn delay Args} seconds.
Arguments State {W value exn delay G Args} world trace tries wait.
Arguments world {W value exn delay G Args} s.
Arguments trace {W value exn delay G Args} s.
Arguments tries {W value exn delay G Args} s.
Arguments wait {W value exn delay G Args} s.
Arguments Returned {value exn} v.
Arguments Raised {value exn} e.
Arguments Diverging {value exn}.
Arguments calls {W value exn delay Args} tr.
Arguments sleeps {W value exn delay Args} tr.
Arguments jitters {W value exn delay Args} tr.
Arguments handled_by {W value exn delay Args} k tr.
Arguments payload {W value exn Args} target args t.
Arguments quiet {W value exn Args} target args h.

(** *** Integer wait times *)

Section Schedules.

Variables (W value exn G Args : Type).
Variable wait_gen : G.
Variable next : G -> Z * G.
Variable predicate : value -> bool.
Variable exception : exn -> bool.
Variable max_tries : option Z.
Variable jitter : W -> Z * W.
Variables on_success on_backoff on_giveup : hopt W value exn Args.
Variable target : callable W value exn Args.
Variable sleep : Z -> W -> W.
Variable obj : Type.
Variable positional : Args -> list obj.
Variable keywords : Args -> list (String.string * obj).
Variable percent_s : obj -> res exn String.string.
Variable percent_s_eq : String.string * obj -> res exn String.string.
Variable name_of : callable W value exn Args -> res exn String.string.
Variable percent_s_int : Z -> String.string.
Variable percent_s_exn : exn -> res exn String.string.
Variable exc_info : W -> option exn.
Variable logger_error : String.string -> W -> res exn unit * W.
Variable type_error : exn.

(** Either decorator for a given wait generator, with Python's [+] on
    integers. *)
Definition predicate_on {G' : Type} (g : G') (next' : G' -> Z * G')
           (fuel : nat) (args : Args) (w : W) :=
  on_predicate W value exn Z G' Args Z.add g next' predicate max_tries jitter
    on_success on_backoff on_giveup target sleep obj positional keywords percent_s
    percent_s_eq name_of percent_s_int percent_s_exn exc_info logger_error type_error
    fuel args w.

Definition exception_on {G' : Type} (g : G') (next' : G' -> Z * G')
           (fuel : nat) (args : Args) (w : W) :=
  on_exception W value exn Z G' Args Z.add g next' exception max_tries jitter
    on_success on_backoff on_giveup target sleep obj positional keywords percent_s
    percent_s_eq name_of percent_s_int percent_s_exn exc_info logger_error type_error
    fuel args w.

(** [P k seconds] holds of every pause: [k] is its number, from 0. *)
Definition every_pause (P : nat -> Z -> Prop) (tr : list (event W value exn Z Args)) : Prop :=
  forall (k : nat) (seconds : Z), nth_error (sleeps tr) k = Some seconds -> P k seconds.

(** [jitter] only returns values from [lo] to [hi]. *)
Definition jitter_within (lo hi : Z) : Prop := forall w, lo <= fst (jitter w) <= hi.

Lemma pauses_within {G' : Type} (g : G') (next' : G' -> Z * G') (lo hi : Z)
      (tr : list (event W value exn Z Args)) :
  jitter_within lo hi ->
  pauses_follow W value exn Z G' Args Z.add g next' jitter tr ->
  every_pause (fun k seconds =>
                 Gen.nth_yield next' g k + lo <= seconds <= Gen.nth_yield next' g k + hi) tr.
Proof.
  intros Hj Hpf k seconds Hk.
  destruct (Hpf k seconds Hk) as (j & w0 & _ & Hw & Hsec).
  specialize (Hj w0); rewrite <- Hw in Hj; lia.
Qed.

Lemma predicate_on_pauses {G' : Type} (g : G') (next' : G' -> Z * G')
      (fuel : nat) (args : Args) (w : W) :
  pauses_follow W value exn Z G' Args Z.add g next' jitter
    (trace (snd (predicate_on g next' fuel args w))).
Proof.
  unfold predicate_on, on_predicate.
  eapply pauses_from_start; apply predicate_pass_shape.
Qed.

Lemma exception_on_pauses {G' : Type} (g : G') (next' : G' -> Z * G')
      (fuel : nat) (args : Args) (w : W) :
  pauses_follow W value exn Z G' Args Z.add g next' jitter
    (trace (snd (exception_on g next' fuel args w))).
Proof.
  unfold exception_on, on_exception.
  eapply pauses_from_start; apply exception_pass_shape.
Qed.

(** X16.  With integer wait times and a [jitter] that only returns
    values from [lo] to [hi], every pause of either decorator lies
    between the value drawn from the wait generator plus [lo] and that
    value plus [hi]. *)
Theorem pause_within_jitter_bounds (lo hi : Z) (fuel : nat) (args : Args) (w : W) :
  jitter_within lo hi ->
  every_pause (fun k seconds =>
                 Gen.nth_yield next wait_gen k + lo <= seconds
                 <= Gen.nth_yield next wait_gen k + hi)
    (trace (snd (predicate_on wait_gen next fuel args w))) /\
  every_pause (fun k seconds =>
                 Gen.nth_yield next wait_gen k + lo <= seconds
                 <= Gen.nth_yield next wait_gen k + hi)
    (trace (snd (exception_on wait_gen next fuel args w))).
Proof.
  intros Hj; split; apply pauses_within; auto.
  - apply predicate_on_pauses.
  - apply exception_on_pauses.
Qed.

Lemma every_pause_impl (P Q : nat -> Z -> Prop) (tr : list (event W value exn Z Args)) :
  (forall k seconds, P k seconds -> Q k seconds) -> every_pause P tr -> every_pause Q tr.
Proof. intros H HP k seconds Hk; apply H, HP, Hk. Qed.

(** X17.  With a [jitter] that only returns values from [lo] to [hi]:
    under [expo] or [fibo] with [max_value = m] no pause of either
    decorator is longer than [m + hi], and under [constant] every pause
    lies between [interval + lo] and [interval + hi]. *)
Theorem pause_bounds_of_builtin_generators
        (base m interval lo hi : Z) (fuel : nat) (args : Args) (w : W) :
  jitter_within lo hi ->
  let capped := every_pause (fun _ seconds => seconds <= m + hi) in
  let flat := every_pause (fun _ seconds => interval + lo <= seconds <= interval + hi) in
  (capped (trace (snd (predicate_on Gen.expo_init (Gen.expo_next base (Some m)) fuel args w))) /\
   capped (trace (snd (exception_on Gen.expo_init (Gen.expo_next base (Some m)) fuel args w)))) /\
  (capped (trace (snd (predicate_on Gen.fibo_init (Gen.fibo_next (Some m)) fuel args w))) /\
   capped (trace (snd (exception_on Gen.fibo_init (Gen.fibo_next (Some m)) fuel args w)))) /\
  (flat (trace (snd (predicate_on Gen.constant_init (Gen.constant_next interval) fuel args w))) /\
   flat (trace (snd (exception_on Gen.constant_init (Gen.constant_next interval)
                       fuel args w)))).
Proof.
  intros Hj capped flat.
  assert (He : forall k seconds,
             Gen.nth_yield (Gen.expo_next base (Some m)) Gen.expo_init k + lo <= seconds
             <= Gen.nth_yield (Gen.expo_next base (Some m)) Gen.expo_init k + hi ->
             seconds <= m + hi)
    by (intros k seconds H; pose proof (Gen.expo_le_max base m k); lia).
  assert (Hf : forall k seconds,
             Gen.nth_yield (Gen.fibo_next (Some m)) Gen.fibo_init k + lo <= seconds
             <= Gen.nth_yield (Gen.fibo_next (Some m)) Gen.fibo_init k + hi ->
             seconds <= m + hi)
    by (intros k seconds H; pose proof (Gen.fibo_le_max m k); lia).
  assert (Hc : forall k seconds,
             Gen.nth_yield (Gen.constant_next interval) Gen.constant_init k + lo <= seconds
             <= Gen.nth_yield (Gen.constant_next interval) Gen.constant_init k + hi ->
             interval + lo <= seconds <= interval + hi)
    by (intros k seconds H; exact H).
  split; [split | split; split].
  - apply (every_pause_impl _ _ _ He), pauses_within, predicate_on_pauses; exact Hj.
  - apply (every_pause_impl _ _ _ He), pauses_within, exception_on_pauses; exact Hj.
  - apply (every_pause_impl _ _ _ Hf), pauses_within, predicate_on_pauses; exact Hj.
  - apply (every_pause_impl _ _ _ Hf), pauses_within, exception_on_pauses; exact Hj.
  - apply (every_pause_impl _ _ _ Hc), pauses_within, predicate_on_pauses; exact Hj.
  - apply (every_pause_impl _ _ _ Hc), pauses_within, exception_on_pauses; exact Hj.
Qed.

End Schedules.

End Retry.
(** ** A concrete configuration

    The world counts the calls of the target; wait times and jitter are
    integers; the wait generator is [expo] with its default base; the
    decorated functions take no argument. *)

Module Demo.

Import Retry.

Inductive err : Type := Timeout | Fatal | TypeError | AttributeError.

Definition D_callable : Type := callable nat Z err unit.
Definition D_handler : Type := handler nat Z err unit.
Definition D_hopt : Type := hopt nat Z err unit.
Definition D_state : Type := state nat Z err Z Z unit.
Definition D_outcome : Type := outcome Z err.

(** A target that always raises [Timeout]. *)
Definition flaky : D_callable := fun _ w => (Exc Timeout, S w).

(** A target that always raises [Fatal]. *)
Definition broken : D_callable := fun _ w => (Exc Fatal, S w).

(** A target that always returns 0, which [operator.not_] holds of. *)
Definition empty : D_callable := fun _ w => (Val 0, S w).

(** A target that always returns 7. *)
Definition ready : D_callable := fun _ w => (Val 7, S w).

(** [operator.not_] on integers. *)
Definition not_ (v : Z) : bool := v =? 0.

(** [except Timeout]. *)
Definition timeouts (e : err) : bool :=
  match e with
  | Timeout => true
  | _ => false
  end.

Definition no_jitter (w : nat) : Z * nat := (0, w).

(** A handler that does nothing, standing for a caller's statistics
    handler. *)
Definition note : D_handler := fun _ w => (Val tt, w).

Definition no_sleep (seconds : Z) (w : nat) : nat := w.

(** What the default loggers use.  An object to format is given by its
    text; the calls have no argument; every function is named [f]; the
    log discards its messages. *)
Module Text.

Import Stdlib.Strings.String.

Definition D_obj : Type := string.

Definition positional (_ : unit) : list D_obj := [].

Definition keywords (_ : unit) : list (string * D_obj) := [].

Definition percent_s (a : D_obj) : res err string := Val a.

Definition percent_s_eq (i : string * D_obj) : res err string :=
  Val (fst i ++ "=" ++ snd i)%string.

Definition name_of (f : D_callable) : res err string := Val "f"%string.

(** A callable object without a [__name__], a [functools.partial] for
    instance. *)
Definition nameless (f : D_callable) : res err string := Exc AttributeError.

Definition percent_s_int (n : Z) : string :=
  DecimalString.NilZero.string_of_int (Z.to_int n).

Definition percent_s_exn (e : err) : res err string :=
  Val (match e with
       | Timeout => "Timeout"
       | Fatal => "Fatal"
       | TypeError => "TypeError"
       | AttributeError => "AttributeError"
       end)%string.

Definition logger_error (msg : string) (w : nat) : res err unit * nat := (Val tt, w).

Example backing_off_text :
  Repr.with_exception (Repr.backing_off "f()" (percent_s_int 2)) "Timeout" =
  "Backing off f() after 2 tries (exception Timeout)"%string.
Proof. reflexivity. Qed.

(** The text the default loggers build for a call of [flaky]. *)
Example invocation_text :
  _invoc_repr_call nat Z err unit D_obj positional keywords percent_s percent_s_eq name_of
    (Invoc flaky tt) = Val "f()"%string.
Proof. reflexivity. Qed.

End Text.

Import Text.

(** [sys.exc_info()[1]]: the world counts the calls of the target, so
    the exception being handled, if there is one, is the one the last
    call of the target raised. *)
Definition handling (target : D_callable) (w : nat) : option err :=
  match w with
  | O => None
  | S w' =>
      match fst (target tt w') with
      | Exc e => Some e
      | Val _ => None
      end
  end.

(** The default loggers of this configuration. *)
Definition D_log_backoff (target : D_callable) : D_handler :=
  _log_backoff nat Z err unit D_obj positional keywords percent_s percent_s_eq name_of percent_s_int
    percent_s_exn (handling target) logger_error TypeError.

Definition D_log_giveup (target : D_callable) : D_handler :=
  _log_giveup nat Z err unit D_obj positional keywords percent_s percent_s_eq name_of percent_s_int
    percent_s_exn (handling target) logger_error TypeError.

(** [@on_predicate(expo, max_tries=max_tries, jitter=lambda: 0,
    on_success=note, on_giveup=note)] around [target], called in the
    world 0. *)
Definition run_predicate (max_tries : option Z) (target : D_callable) (fuel : nat)
  : D_outcome * D_state :=
  on_predicate
    nat Z err Z Z unit Z.add Gen.expo_init (Gen.expo_next 2 None) not_
    max_tries no_jitter (HCallable note) HNone (HCallable note) target no_sleep
    D_obj positional keywords percent_s percent_s_eq name_of percent_s_int
    percent_s_exn (handling target) logger_error TypeError
    fuel tt 0%nat.

(** [@on_exception(expo, Timeout, max_tries=max_tries, jitter=lambda: 0,
    on_success=note, on_giveup=note)] around [target], called in the
    world 0. *)
Definition run_exception (max_tries : option Z) (target : D_callable) (fuel : nat)
  : D_outcome * D_state :=
  on_exception
    nat Z err Z Z unit Z.add Gen.expo_init (Gen.expo_next 2 None) timeouts
    max_tries no_jitter (HCallable note) HNone (HCallable note) target no_sleep
    D_obj positional keywords percent_s percent_s_eq name_of percent_s_int
    percent_s_exn (handling target) logger_error TypeError
    fuel tt 0%nat.

Definition D_payload (target : D_callable) (t : Z) : list (pyarg nat Z err unit) :=
  payload target tt t.

Example flaky_three_tries :
  fst (run_exception (Some 3) flaky 10) = Raised Timeout /\
  trace (snd (run_exception (Some 3) flaky 10)) =
  [Called (Exc Timeout);
   Drew 1; Jittered 0;
   Handled OnBackoff 0 (D_payload flaky 1); Slept 1;
   Called (Exc Timeout);
   Drew 2; Jittered 0;
   Handled OnBackoff 0 (D_payload flaky 2); Slept 2;
   Called (Exc Timeout);
   Handled OnGiveup 0 (D_payload flaky 3);
   Handled OnGiveup 1 (D_payload flaky 3)].
Proof. split; reflexivity. Qed.

Example empty_three_tries :
  fst (run_predicate (Some 3) empty 10) = Returned 0 /\
  calls (trace (snd (run_predicate (Some 3) empty 10))) =
  [Val 0; Val 0; Val 0] /\
  sleeps (trace (snd (run_predicate (Some 3) empty 10))) = [1; 2].
Proof. repeat split; reflexivity. Qed.

Example ready_at_once :
  run_predicate (Some 3) ready 10 =
  (Returned 7,
   State 1%nat
     [Called (Val 7); Handled OnSuccess 0 (D_payload ready 0)]
     0 Gen.expo_init).
Proof. reflexivity. Qed.

(** The give-up handlers of a call that gives up at once receive two
    arguments, although the docstrings give them the signature
    [(invoc, tries, exception)]. *)
Example giveup_receives_two_arguments :
  handled_by OnGiveup (trace (snd (run_exception (Some 1) flaky 1))) =
  [(0%nat, [AInvoc (Invoc flaky tt); AInt 1]);
   (1%nat, [AInvoc (Invoc flaky tt); AInt 1])].
Proof. reflexivity. Qed.

(** With [max_tries = 0] the counter is 1 after the first pass, and the
    loop goes on. *)
Example zero_max_tries_first_pass :
  fst (run_exception (Some 0) flaky 1) = Diverging /\
  tries (snd (run_exception (Some 0) flaky 1)) = 1.
Proof. split; reflexivity. Qed.

Lemma note_quiet (target : D_callable) : quiet target tt note.
Proof. intros t w; reflexivity. Defined.


Lemma log_backoff_fine (target : D_callable) : quiet target tt (D_log_backoff target).
Proof.
  intros t w; unfold D_log_backoff, _log_backoff; simpl.
  destruct (handling target w) as [[]|]; reflexivity.
Defined.

Lemma log_giveup_fine (target : D_callable) : quiet target tt (D_log_giveup target).
Proof.
  intros t w; unfold D_log_giveup, _log_giveup; simpl.
  destruct (handling target w) as [[]|]; reflexivity.
Defined.

Lemma flaky_always_raises :
  always_raises_matching nat Z err unit timeouts flaky tt.
Proof. intros w; exists Timeout, (S w); split; reflexivity. Defined.

Lemma empty_always_unsatisfactory :
  always_unsatisfactory nat Z err unit not_ empty tt.
Proof. intros w; exists 0, (S w); split; reflexivity. Defined.

(** [tries_capped] fails for [max_tries = 0] in both decorators: after
    one pass the counter is 1. *)
Lemma tries_exceed_zero_max_tries :
  ~ tries_capped nat Z err Z Z unit empty tt 0 (run_predicate (Some 0) empty) /\
  ~ tries_capped nat Z err Z Z unit flaky tt 0 (run_exception (Some 0) flaky).
Proof.
  split; intros H; destruct (H 1%nat) as [Hle _]; apply Hle; reflexivity.
Qed.

Lemma tries_capped_by_positive_max_tries_witness :
  tries_capped nat Z err Z Z unit empty tt 3 (run_predicate (Some 3) empty) /\
  tries_capped nat Z err Z Z unit flaky tt 3 (run_exception (Some 3) flaky).
Proof.
  split.
  - destruct (tries_capped_by_positive_max_tries
    nat Z err Z Z unit Z.add Gen.expo_init (Gen.expo_next 2 None) not_ timeouts
    (Some 3) no_jitter (HCallable note) HNone (HCallable note) empty no_sleep
    D_obj positional keywords percent_s percent_s_eq name_of percent_s_int
    percent_s_exn (handling empty) logger_error TypeError
                3 tt 0%nat) as (_ & _ & H & _); [lia | reflexivity | exact H].
  - destruct (tries_capped_by_positive_max_tries
    nat Z err Z Z unit Z.add Gen.expo_init (Gen.expo_next 2 None) not_ timeouts
    (Some 3) no_jitter (HCallable note) HNone (HCallable note) flaky no_sleep
    D_obj positional keywords percent_s percent_s_eq name_of percent_s_int
    percent_s_exn (handling flaky) logger_error TypeError
                3 tt 0%nat) as (_ & _ & _ & H); [lia | reflexivity | exact H].
Defined.

(** *** Handlers that raise *)

(** A handler that always raises [Fatal]. *)
Definition failing : D_handler := fun _ w => (Exc Fatal, w).

(** The decorators with other success and give-up handlers. *)
Definition run_predicate_with (on_success on_giveup : D_hopt) (max_tries : option Z)
           (target : D_callable) (fuel : nat) : D_outcome * D_state :=
  on_predicate
    nat Z err Z Z unit Z.add Gen.expo_init (Gen.expo_next 2 None) not_
    max_tries no_jitter on_success HNone on_giveup target no_sleep
    D_obj positional keywords percent_s percent_s_eq name_of percent_s_int
    percent_s_exn (handling target) logger_error TypeError
    fuel tt 0%nat.

Definition run_exception_with (on_success on_giveup : D_hopt) (max_tries : option Z)
           (target : D_callable) (fuel : nat) : D_outcome * D_state :=
  on_exception
    nat Z err Z Z unit Z.add Gen.expo_init (Gen.expo_next 2 None) timeouts
    max_tries no_jitter on_success HNone on_giveup target no_sleep
    D_obj positional keywords percent_s percent_s_eq name_of percent_s_int
    percent_s_exn (handling target) logger_error TypeError
    fuel tt 0%nat.



(** The decorators around a callable without a [__name__]. *)
Definition run_predicate_nameless (max_tries : option Z) (target : D_callable) (fuel : nat)
  : D_outcome * D_state :=
  on_predicate
    nat Z err Z Z unit Z.add Gen.expo_init (Gen.expo_next 2 None) not_
    max_tries no_jitter HNone HNone HNone target no_sleep
    D_obj positional keywords percent_s percent_s_eq nameless percent_s_int
    percent_s_exn (handling target) logger_error TypeError
    fuel tt 0%nat.

Definition run_exception_nameless (max_tries : option Z) (target : D_callable) (fuel : nat)
  : D_outcome * D_state :=
  on_exception
    nat Z err Z Z unit Z.add Gen.expo_init (Gen.expo_next 2 None) timeouts
    max_tries no_jitter HNone HNone HNone target no_sleep
    D_obj positional keywords percent_s percent_s_eq nameless percent_s_int
    percent_s_exn (handling target) logger_error TypeError
    fuel tt 0%nat.

(** A failing success handler between two others: the value 7 is lost
    and the third handler is not called. *)
Example failing_success_handler :
  run_exception_with (HIterable [note; failing; note]) HNone (Some 3) ready 5 =
  (Raised Fatal,
   State 1%nat
     [Called (Val 7);
      Handled OnSuccess 0 (D_payload ready 0); Handled OnSuccess 1 (D_payload ready 0)]
     0 Gen.expo_init).
Proof. reflexivity. Qed.

(** A failing give-up handler in [on_predicate]: the call raises instead
    of returning the last value. *)
Example failing_giveup_handler :
  fst (run_predicate_with HNone (HCallable failing) (Some 2) empty 5) = Raised Fatal.
Proof. reflexivity. Qed.

(** The failing success handler above, as [raised_by_handler] tells it:
    the first pass reached the success handlers, the first one returned
    and the second one raised [Fatal]. *)
Example failing_success_handler_explained :
  raised_by_handler nat Z err Z Z unit (Gen.expo_next 2 None) (Some 3) no_jitter
     (HIterable [note; failing; note]) HNone HNone ready
     D_obj positional keywords percent_s percent_s_eq name_of percent_s_int
    percent_s_exn (handling ready) logger_error TypeError
     (exception_trigger Z err timeouts) tt
     (run_exception_with (HIterable [note; failing; note]) HNone (Some 3) ready) 5 Fatal.
Proof.
  exists 0%nat, OnSuccess, 2%nat.
  split; [lia|]; split; [reflexivity|]; split.
  - split; [exists 7; reflexivity | reflexivity].
  - split; [simpl; lia|].
    exists failing, 1%nat; repeat split; reflexivity.
Qed.

Lemma failing_raising : raising nat Z err unit Fatal failing.
Proof. intros a w; reflexivity. Defined.

Lemma no_jitter_within : jitter_within nat no_jitter 0 0.
Proof. intros w; simpl; lia. Defined.




(** C9 as worded fails: the first call of [ready] succeeds, yet with a
    success handler that raises the call does not return the value of
    the target, and the success handler after the raising one is not
    called. *)
Lemma success_failure_loses_value :
  ready tt 0%nat = (Val 7, 1%nat) /\
  fst (run_exception_with (HIterable [note; failing; note]) HNone (Some 3) ready 5) =
  Raised Fatal /\
  ~ succeeded_at_once nat Z err Z Z unit (HIterable [note; failing; note]) ready tt 7
      (run_predicate_with (HIterable [note; failing; note]) HNone (Some 3) ready 5) /\
  ~ succeeded_at_once nat Z err Z Z unit (HIterable [note; failing; note]) ready tt 7
      (run_exception_with (HIterable [note; failing; note]) HNone (Some 3) ready 5).
Proof.
  split; [reflexivity|]; split; [reflexivity|].
  split; intros (Hout & _); vm_compute in Hout; discriminate Hout.
Qed.

(** *** The theorems at work *)




Lemma on_exception_propagates_unmatched_witness :
  run_exception (Some 3) broken 5 =
  (Raised Fatal, State 1%nat [Called (Exc Fatal)] 0 Gen.expo_init).
Proof.
  apply (on_exception_propagates_unmatched
    nat Z err Z Z unit Z.add Gen.expo_init (Gen.expo_next 2 None) timeouts
    (Some 3) no_jitter (HCallable note) HNone (HCallable note) broken no_sleep
    D_obj positional keywords percent_s percent_s_eq name_of percent_s_int
    percent_s_exn (handling broken) logger_error TypeError
           tt 0%nat 1%nat Fatal 4%nat); reflexivity.
Defined.


Lemma first_attempt_success_witness :
  (succeeded_at_once nat Z err Z Z unit (HCallable note) ready tt 7
     (run_predicate (Some 3) ready 5) /\
   succeeded_at_once nat Z err Z Z unit (HCallable note) ready tt 7
     (run_exception (Some 3) ready 5)) /\
  no_retry nat Z err Z Z unit (HIterable [note; failing; note]) ready tt 7
    (run_exception_with (HIterable [note; failing; note]) HNone (Some 3) ready 5).
Proof.
  split.
  - destruct (first_attempt_success
    nat Z err Z Z unit Z.add Gen.expo_init (Gen.expo_next 2 None) not_ timeouts
    (Some 3) no_jitter (HCallable note) HNone (HCallable note) ready no_sleep
    D_obj positional keywords percent_s percent_s_eq name_of percent_s_int
    percent_s_exn (handling ready) logger_error TypeError
                tt 0%nat 1%nat 7 4%nat) as [_ Hall]; [reflexivity|].
    destruct Hall as [Hp He]; [repeat constructor; exact (note_quiet ready)|].
    split; [apply Hp; reflexivity | exact He].
  - destruct (first_attempt_success
    nat Z err Z Z unit Z.add Gen.expo_init (Gen.expo_next 2 None) not_ timeouts
    (Some 3) no_jitter (HIterable [note; failing; note]) HNone HNone ready no_sleep
    D_obj positional keywords percent_s percent_s_eq name_of percent_s_int
    percent_s_exn (handling ready) logger_error TypeError
                tt 0%nat 1%nat 7 4%nat) as [[_ He] _]; [reflexivity | exact He].
Defined.

Lemma on_predicate_propagates_witness :
  run_predicate (Some 3) flaky 5 =
  (Raised Timeout, State 1%nat [Called (Exc Timeout)] 0 Gen.expo_init).
Proof.
  apply (on_predicate_propagates
    nat Z err Z Z unit Z.add Gen.expo_init (Gen.expo_next 2 None) not_
    (Some 3) no_jitter (HCallable note) HNone (HCallable note) flaky no_sleep
    D_obj positional keywords percent_s percent_s_eq name_of percent_s_int
    percent_s_exn (handling flaky) logger_error TypeError
           tt 0%nat 1%nat Timeout 4%nat); reflexivity.
Defined.

Lemma giveup_only_at_max_tries_witness :
  handled_by OnGiveup (trace (snd (run_predicate None empty 6))) = [] /\
  handled_by OnGiveup (trace (snd (run_exception None flaky 6))) = [].
Proof.
  split.
  - apply (proj2 (proj2 (giveup_only_at_max_tries
    nat Z err Z Z unit Z.add Gen.expo_init (Gen.expo_next 2 None) not_ timeouts
    None no_jitter (HCallable note) HNone (HCallable note) empty no_sleep
    D_obj positional keywords percent_s percent_s_eq name_of percent_s_int
    percent_s_exn (handling empty) logger_error TypeError
                           6%nat tt 0%nat))); reflexivity.
  - apply (proj2 (proj2 (giveup_only_at_max_tries
    nat Z err Z Z unit Z.add Gen.expo_init (Gen.expo_next 2 None) not_ timeouts
    None no_jitter (HCallable note) HNone (HCallable note) flaky no_sleep
    D_obj positional keywords percent_s percent_s_eq name_of percent_s_int
    percent_s_exn (handling flaky) logger_error TypeError
                           6%nat tt 0%nat))); reflexivity.
Defined.

Lemma calls_bounded_by_max_tries_witness :
  at_most_calls nat Z err Z unit 3 (trace (snd (run_predicate (Some 3) empty 9))) /\
  at_most_calls nat Z err Z unit 3 (trace (snd (run_exception (Some 3) flaky 9))).
Proof.
  split.
  - apply (proj1 (calls_bounded_by_max_tries
    nat Z err Z Z unit Z.add Gen.expo_init (Gen.expo_next 2 None) not_ timeouts
    (Some 3) no_jitter (HCallable note) HNone (HCallable note) empty no_sleep
    D_obj positional keywords percent_s percent_s_eq name_of percent_s_int
    percent_s_exn (handling empty) logger_error TypeError
                    3 9%nat tt 0%nat ltac:(lia) eq_refl)).
  - apply (proj2 (calls_bounded_by_max_tries
    nat Z err Z Z unit Z.add Gen.expo_init (Gen.expo_next 2 None) not_ timeouts
    (Some 3) no_jitter (HCallable note) HNone (HCallable note) flaky no_sleep
    D_obj positional keywords percent_s percent_s_eq name_of percent_s_int
    percent_s_exn (handling flaky) logger_error TypeError
                    3 9%nat tt 0%nat ltac:(lia) eq_refl)).
Defined.



Lemma raising_success_handler_aborts_witness :
  aborted_by nat Z err Z Z unit ready OnSuccess tt [note] 0 Fatal
    (run_predicate_with (HIterable [note; failing; note]) HNone (Some 3) ready 5) /\
  aborted_by nat Z err Z Z unit ready OnSuccess tt [note] 0 Fatal
    (run_exception_with (HIterable [note; failing; note]) HNone (Some 3) ready 5).
Proof.
  destruct (raising_success_handler_aborts
    nat Z err Z Z unit Z.add Gen.expo_init (Gen.expo_next 2 None) not_ timeouts
    (Some 3) no_jitter (HIterable [note; failing; note]) HNone HNone ready no_sleep
    D_obj positional keywords percent_s percent_s_eq name_of percent_s_int
    percent_s_exn (handling ready) logger_error TypeError
              tt 0%nat 1%nat 7 4%nat [note] failing Fatal) as [Hp He].
  - reflexivity.
  - split; [repeat constructor; exact (note_quiet ready)|].
    split; [exact failing_raising | exists [note]; reflexivity].
  - split; [apply Hp; reflexivity | exact He].
Defined.

Lemma raising_giveup_handler_aborts_witness :
  aborted_by nat Z err Z Z unit empty OnGiveup tt [D_log_giveup empty] 2 Fatal
    (run_predicate_with HNone (HCallable failing) (Some 2) empty 5) /\
  aborted_by nat Z err Z Z unit flaky OnGiveup tt [D_log_giveup flaky] 2 Fatal
    (run_exception_with HNone (HCallable failing) (Some 2) flaky 5).
Proof.
  split.
  - destruct (raising_giveup_handler_aborts
    nat Z err Z Z unit Z.add Gen.expo_init (Gen.expo_next 2 None) not_ timeouts
    (Some 2) no_jitter HNone HNone (HCallable failing) empty no_sleep
    D_obj positional keywords percent_s percent_s_eq name_of percent_s_int
    percent_s_exn (handling empty) logger_error TypeError
                2 tt 5%nat 0%nat [D_log_giveup empty] failing Fatal) as [Hp He].
    + lia.
    + reflexivity.
    + repeat constructor; exact (log_backoff_fine empty).
    + split; [repeat constructor; exact (log_giveup_fine empty)|].
      split; [exact failing_raising | exists []; reflexivity].
    + simpl; lia.
    + exact (proj1 (Hp empty_always_unsatisfactory)).
  - destruct (raising_giveup_handler_aborts
    nat Z err Z Z unit Z.add Gen.expo_init (Gen.expo_next 2 None) not_ timeouts
    (Some 2) no_jitter HNone HNone (HCallable failing) flaky no_sleep
    D_obj positional keywords percent_s percent_s_eq name_of percent_s_int
    percent_s_exn (handling flaky) logger_error TypeError
                2 tt 5%nat 0%nat [D_log_giveup flaky] failing Fatal) as [Hp He].
    + lia.
    + reflexivity.
    + repeat constructor; exact (log_backoff_fine flaky).
    + split; [repeat constructor; exact (log_giveup_fine flaky)|].
      split; [exact failing_raising | exists []; reflexivity].
    + simpl; lia.
    + exact (proj1 (He flaky_always_raises)).
Defined.

Lemma pause_within_jitter_bounds_witness :
  every_pause nat Z err unit
    (fun k seconds =>
       Gen.nth_yield (Gen.expo_next 2 None) Gen.expo_init k + 0 <= seconds
       <= Gen.nth_yield (Gen.expo_next 2 None) Gen.expo_init k + 0)
    (trace (snd (exception_on nat Z err unit timeouts (Some 3) no_jitter
                   (HCallable note) HNone (HCallable note) flaky no_sleep
                   D_obj positional keywords percent_s percent_s_eq name_of percent_s_int
    percent_s_exn (handling flaky) logger_error TypeError
                   Gen.expo_init (Gen.expo_next 2 None) 5 tt 0%nat))).
Proof.
  exact (proj2 (pause_within_jitter_bounds nat Z err Z unit Gen.expo_init
                  (Gen.expo_next 2 None) not_ timeouts (Some 3) no_jitter
                  (HCallable note) HNone (HCallable note) flaky no_sleep
                  D_obj positional keywords percent_s percent_s_eq name_of percent_s_int
    percent_s_exn (handling flaky) logger_error TypeError
                  0 0 5%nat tt 0%nat no_jitter_within)).
Defined.

Lemma pause_bounds_of_builtin_generators_witness :
  every_pause nat Z err unit (fun _ seconds => seconds <= 4 + 0)
    (trace (snd (exception_on nat Z err unit timeouts (Some 5) no_jitter
                   (HCallable note) HNone (HCallable note) flaky no_sleep
                   D_obj positional keywords percent_s percent_s_eq name_of percent_s_int
    percent_s_exn (handling flaky) logger_error TypeError
                   Gen.expo_init (Gen.expo_next 2 (Some 4)) 9 tt 0%nat))).
Proof.
  exact (proj2 (proj1 (pause_bounds_of_builtin_generators nat Z err unit not_ timeouts
                         (Some 5) no_jitter (HCallable note) HNone (HCallable note)
                         flaky no_sleep
                         D_obj positional keywords percent_s percent_s_eq name_of percent_s_int
    percent_s_exn (handling flaky) logger_error TypeError
                         2 4 1 0 0 9%nat tt 0%nat
                         no_jitter_within))).
Defined.

(** *** A call with a tuple argument

    ["%s" % a] takes a tuple [a] for the arguments of the format: it
    raises [TypeError] unless the tuple has exactly one item.  In
    ["%s=%s" % i] the value of the keyword is an item of the tuple [i]
    and goes through [str]. *)

Module Tuples.

Import Stdlib.Strings.String.

Inductive D_arg : Type :=
| AnInt (n : Z)
| ATuple (items : list Z).

Definition T_callable : Type := callable nat Z err (list D_arg).

Definition format_arg (a : D_arg) : res err string :=
  match a with
  | AnInt n => Val (percent_s_int n)
  | ATuple [n] => Val (percent_s_int n)
  | ATuple _ => Exc TypeError
  end.

Definition str_arg (a : D_arg) : string :=
  match a with
  | AnInt n => percent_s_int n
  | ATuple [n] => ("(" ++ percent_s_int n ++ ",)")%string
  | ATuple items => ("(" ++ concat ", " (map percent_s_int items) ++ ")")%string
  end.

Definition format_item (i : string * D_arg) : res err string :=
  Val (fst i ++ "=" ++ str_arg (snd i))%string.

Definition named_f (f : T_callable) : res err string := Val "f"%string.

(** A target that always raises [Timeout], whatever its arguments. *)
Definition flaky_with : T_callable := fun _ w => (Exc Timeout, S w).

(** The world counts the calls of [flaky_with]: after the first one a
    [Timeout] is being handled. *)
Definition after_timeout (w : nat) : option err :=
  match w with
  | O => None
  | S _ => Some Timeout
  end.

(** [@on_exception(expo, Timeout, max_tries=max_tries, jitter=lambda: 0)]
    around [flaky_with], called with the positional arguments [args]. *)
Definition run_exception_on (args : list D_arg) (max_tries : option Z) (fuel : nat)
  : outcome Z err * state nat Z err Z Z (list D_arg) :=
  on_exception nat Z err Z Z (list D_arg) Z.add Gen.expo_init (Gen.expo_next 2 None)
    timeouts max_tries no_jitter HNone HNone HNone flaky_with no_sleep
    D_arg (fun a => a) (fun _ => []) format_arg format_item named_f percent_s_int
    percent_s_exn after_timeout logger_error TypeError fuel args 0%nat.

Example invocation_with_integers :
  _invoc_repr_call nat Z err (list D_arg) D_arg (fun a => a) (fun _ => []) format_arg
    format_item named_f (Invoc flaky_with [AnInt 1; AnInt 2]) = Val "f(1, 2)"%string.
Proof. reflexivity. Qed.

Example invocation_with_pair :
  _invoc_repr_call nat Z err (list D_arg) D_arg (fun a => a) (fun _ => []) format_arg
    format_item named_f (Invoc flaky_with [ATuple [1; 2]]) = Exc TypeError.
Proof. reflexivity. Qed.

(** With integer arguments the call is retried until [max_tries]. *)
Example integers_are_retried :
  fst (run_exception_on [AnInt 1; AnInt 2] (Some 3) 5) = Raised Timeout /\
  List.length (calls (trace (snd (run_exception_on [AnInt 1; AnInt 2] (Some 3) 5)))) = 3%nat.
Proof. split; reflexivity. Qed.

(** With a pair as argument the default backoff logger raises
    [TypeError] after the first call of the target. *)
Example pair_is_not_retried :
  fst (run_exception_on [ATuple [1; 2]] (Some 3) 5) = Raised TypeError /\
  calls (trace (snd (run_exception_on [ATuple [1; 2]] (Some 3) 5))) = [Exc Timeout].
Proof. split; reflexivity. Qed.

End Tuples.

Lemma formatting_failure_aborts_backoff_witness :
  Tuples.run_exception_on [Tuples.ATuple [1; 2]] (Some 3) 5 =
  (Raised TypeError,
   State 1%nat
     [Called (Exc Timeout); Drew 1; Jittered 0;
      Handled OnBackoff 0 (payload Tuples.flaky_with [Tuples.ATuple [1; 2]] 1)]
     1 (snd (Gen.expo_next 2 None Gen.expo_init))).
Proof.
  destruct (formatting_failure_aborts_backoff
              nat Z err Z Z (list Tuples.D_arg) Z.add Gen.expo_init (Gen.expo_next 2 None)
              not_ timeouts (Some 3) no_jitter HNone HNone HNone Tuples.flaky_with no_sleep
              Tuples.D_arg (fun a => a) (fun _ => []) Tuples.format_arg Tuples.format_item
              Tuples.named_f percent_s_int percent_s_exn Tuples.after_timeout logger_error
              TypeError [Tuples.ATuple [1; 2]] 0%nat 1%nat (Exc Timeout) TypeError 4%nat)
    as [_ He].
  - reflexivity.
  - reflexivity.
  - discriminate.
  - exact (He eq_refl).
Defined.

Lemma formatting_failure_aborts_giveup_witness :
  run_predicate_nameless (Some 1) empty 5 =
  (Raised AttributeError,
   State 1%nat [Called (Val 0); Handled OnGiveup 0 (D_payload empty 1)] 1 Gen.expo_init).
Proof.
  destruct (formatting_failure_aborts_giveup
    nat Z err Z Z unit Z.add Gen.expo_init (Gen.expo_next 2 None) not_ timeouts
    (Some 1) no_jitter HNone HNone HNone empty no_sleep
    D_obj positional keywords percent_s percent_s_eq nameless percent_s_int
    percent_s_exn (handling empty) logger_error TypeError
              tt 0%nat 1%nat (Val 0) AttributeError 4%nat) as [Hp _].
  - reflexivity.
  - reflexivity.
  - reflexivity.
  - exact (Hp eq_refl).
Defined.

End Demo.
